(** * The divide-and-conquer forecasting engine

    A shallow embedding of
    [backend/app/services/forecasting/divide_conquer_engine.py]:
    the [DataSegmenter] (divide), the [SegmentForecaster] (conquer), the
    [ForecastMerger] (combine) and the [DivideAndConquerForecaster] that
    orchestrates them.

    Conventions of the embedding.
    - A Python exception is a value [Raise e] of the [result] type; a
      [try ... except] is a [match] on it.
    - A binary64 number is a rational or one of the IEEE special values
      (+inf, -inf, NaN).  Every arithmetic operation rounds its exact
      result with [round64], the rounding to the nearest binary64 number,
      which overflows to an infinity; [round64] is a field of the class
      [Library], with the laws of that rounding the proofs use.  A
      decimal literal of the source stands for the rational it names.
      The sign of zero is not modelled.
    - [np.full] refuses a size above [array_limit], the largest array
      the machine allocates.
    - A [pandas.DataFrame] is its column index and its rows.  A row has
      the columns the engine reads ([origin], [destination], [airline],
      [date], [price], [days_to_departure], [occupancy_rate]); a date is
      a day number.  The two helper columns the segmenter writes
      ([period], [demand_cluster]) are optional cells of a row.  A method
      that assigns a column returns the frame the caller is left with.
    - The third-party models (ARIMA, Holt-Winters, k-means), pandas' calendar
      arithmetic and the square root are further fields of [Library]. *)

From Stdlib Require Import QArith Qabs ZArith Lia Lqa Ascii Sorted.
From stdpp Require Import gmap strings list fin_maps pretty.

Open Scope Z_scope.

(** ** Exceptions *)

Inductive exn : Type :=
| ValueError
| ZeroDivisionError
| TypeError
| MemoryError
| ModelError.

Inductive result (A : Type) : Type :=
| Ok (a : A)
| Raise (e : exn).
Arguments Ok {A} a.
Arguments Raise {A} e.

#[global] Instance result_ret : MRet result := fun A a => Ok a.
#[global] Instance result_bind : MBind result := fun A B k m =>
  match m with
  | Ok a => k a
  | Raise e => Raise e
  end.

Definition raises {A} (m : result A) : Prop := exists e, m = Raise e.

(** ** Binary64 numbers *)

Inductive float : Type :=
| Fin (q : Q)
| PInf
| NInf
| NaN.

Definition Qltb (x y : Q) : bool :=
  match (x ?= y)%Q with Lt => true | _ => false end.

Definition Qis0 (x : Q) : bool := Qeq_bool x 0.

(** [a < b]; false as soon as one side is NaN. *)
Definition fltb (a b : float) : bool :=
  match a, b with
  | NaN, _ | _, NaN => false
  | Fin x, Fin y => Qltb x y
  | Fin _, PInf | NInf, Fin _ | NInf, PInf => true
  | Fin _, NInf | PInf, _ | NInf, NInf => false
  end.

(** [a == b] *)
Definition feqb (a b : float) : bool :=
  match a, b with
  | Fin x, Fin y => Qeq_bool x y
  | PInf, PInf | NInf, NInf => true
  | _, _ => false
  end.

Definition is_nan (a : float) : bool :=
  match a with NaN => true | _ => false end.

(** The same number: rationals up to [==], special values by name. *)
Definition feq (a b : float) : Prop :=
  match a, b with
  | Fin x, Fin y => (x == y)%Q
  | PInf, PInf | NInf, NInf | NaN, NaN => True
  | _, _ => False
  end.

Definition finite (a : float) : Prop :=
  match a with Fin _ => True | _ => False end.

(** [lo <= a <= hi] for a finite [a]. *)
Definition in_range (lo hi : Q) (a : float) : Prop :=
  match a with
  | Fin x => (lo <= x)%Q /\ (x <= hi)%Q
  | _ => False
  end.

(** The unit roundoff of binary64, 2^-53, and half its smallest positive
    number, 2^-1075. *)
Definition unit_roundoff : Q := 1 / 2 ^ 53.
Definition half_tiny : Q := 1 / 2 ^ 1075.

(** ** The arithmetic and the libraries the engine runs on

    [round64 q] is the binary64 number nearest to the rational [q]
    (ties to even), an infinity when [q] is out of range.  Its laws are
    those of that rounding: it never gives NaN; it is monotone; it
    leaves [m * 2^e] alone for [|m| <= 2^53] and [-1074 <= e <= 970];
    its error is at most [unit_roundoff * |q| + half_tiny], and at most
    [unit_roundoff * |a + b|] on the sum of two binary64 numbers; what it
    returns is a binary64 number; and it is finite up to 2^1023.

    [array_limit] is the largest number of entries of an array that
    numpy allocates on the machine, at least the seven entries of the
    moving-average window; [array_refusal n] is the exception numpy
    raises for a larger size [n] ([MemoryError], or [ValueError] above
    the maximum dimension).

    [sqrtQ] is the square root on non-negative rationals; the two
    forecasting models return [None] when fitting or forecasting raises;
    [to_period freq d] is the ordinal of the calendar period of frequency
    [freq] that holds the date [d], and [period_str] prints it. *)

Class Library : Type := {
  round64 : Q -> float;
  round64_not_nan : forall q, is_nan (round64 q) = false;
  round64_monotone :
    forall p q, (p <= q)%Q -> fltb (round64 q) (round64 p) = false;
  round64_exact :
    forall m e, Z.abs m <= 2 ^ 53 -> -1074 <= e <= 970 ->
      feq (round64 (inject_Z m * 2 ^ e)) (Fin (inject_Z m * 2 ^ e));
  round64_error :
    forall q r, round64 q = Fin r ->
      (Qabs (r - q) <= unit_roundoff * Qabs q + half_tiny)%Q;
  round64_sum :
    forall a b r,
      feq (round64 a) (Fin a) -> feq (round64 b) (Fin b) ->
      round64 (a + b) = Fin r ->
      (Qabs (r - (a + b)) <= unit_roundoff * Qabs (a + b))%Q;
  round64_idem : forall q r, round64 q = Fin r -> feq (round64 r) (Fin r);
  round64_finite : forall q, (Qabs q <= 2 ^ 1023)%Q -> finite (round64 q);
  array_limit : Z;
  array_limit_window : 7 <= array_limit;
  array_refusal : Z -> exn;
  sqrtQ : Q -> Q;
  sqrtQ_nonneg : forall q, (0 <= sqrtQ q)%Q;
  ARIMA_fit_forecast : list float -> Z -> option (list float);
  ExponentialSmoothing_fit_forecast : list float -> Z -> option (list float);
  KMeans_fit_predict : Z -> list (float * float * float) -> option (list Z);
  to_period : string -> Z -> Z;
  period_str : string -> Z -> string
}.

(** ** Binary64 arithmetic *)

Definition fneg (a : float) : float :=
  match a with
  | Fin x => Fin (- x)
  | PInf => NInf
  | NInf => PInf
  | NaN => NaN
  end.

Definition fadd `{Library} (a b : float) : float :=
  match a, b with
  | NaN, _ | _, NaN => NaN
  | Fin x, Fin y => round64 (x + y)
  | PInf, NInf | NInf, PInf => NaN
  | PInf, _ | _, PInf => PInf
  | NInf, _ | _, NInf => NInf
  end.

Definition fsub `{Library} (a b : float) : float := fadd a (fneg b).

(** An infinity scaled by a finite factor: NaN for zero, else by sign. *)
Definition inf_scaled (pos : bool) (y : Q) : float :=
  if Qis0 y then NaN
  else if Bool.eqb pos (Qltb 0 y) then PInf else NInf.

Definition fmul `{Library} (a b : float) : float :=
  match a, b with
  | NaN, _ | _, NaN => NaN
  | Fin x, Fin y => round64 (x * y)
  | PInf, Fin y | Fin y, PInf => inf_scaled true y
  | NInf, Fin y | Fin y, NInf => inf_scaled false y
  | PInf, PInf | NInf, NInf => PInf
  | PInf, NInf | NInf, PInf => NInf
  end.

(** numpy's true division: a zero divisor gives NaN or an infinity. *)
Definition fdiv `{Library} (a b : float) : float :=
  match a, b with
  | NaN, _ | _, NaN => NaN
  | Fin x, Fin y =>
      if Qis0 y then
        if Qis0 x then NaN else if Qltb 0 x then PInf else NInf
      else round64 (x / y)
  | Fin _, PInf | Fin _, NInf => Fin 0
  | PInf, Fin y => if Qltb y 0 then NInf else PInf
  | NInf, Fin y => if Qltb y 0 then PInf else NInf
  | _, _ => NaN
  end.

Definition of_int (z : Z) : float := Fin (inject_Z z).

(** Python's [max(0, x)]: the second argument wins only if it is greater. *)
Definition py_max0 (x : float) : float :=
  if fltb (Fin 0) x then x else Fin 0.

(** Python's [sum(xs)], a left fold from 0. *)
Definition py_sum `{Library} (xs : list float) : float :=
  fold_left fadd xs (Fin 0).

(** [numpy.sum] *)
Definition np_sum `{Library} (xs : list float) : float :=
  fold_right fadd (Fin 0) xs.

(** Python's [a / b] on Python numbers. *)
Definition py_truediv `{Library} (a b : float) : result float :=
  if feqb b (Fin 0) then Raise ZeroDivisionError else Ok (fdiv a b).

(** ** numpy *)

Module np.

Definition sqrt `{Library} (a : float) : float :=
  match a with
  | Fin q => if Qltb q 0 then NaN else Fin (sqrtQ q)
  | PInf => PInf
  | NInf | NaN => NaN
  end.

(** [np.full(n, x)]: a negative size is refused, and so is a size the
    machine does not allocate. *)
Definition full `{Library} (n : Z) (x : float) : result (list float) :=
  if n <? 0 then Raise ValueError
  else if array_limit <? n then Raise (array_refusal n)
  else Ok (replicate (Z.to_nat n) x).

(** [np.ones(n)] *)
Definition ones `{Library} (n : Z) : result (list float) := full n (Fin 1).

(** [np.mean] of a vector; NaN on the empty one. *)
Definition mean `{Library} (xs : list float) : float :=
  fdiv (np_sum xs) (of_int (Z.of_nat (length xs))).

(** [np.max] of a vector: NaN wins, the empty vector raises. *)
Definition maximum (a b : float) : float :=
  if is_nan a then NaN else if is_nan b then NaN
  else if fltb a b then b else a.

Definition max (xs : list float) : result float :=
  match xs with
  | [] => Raise ValueError
  | x :: t => Ok (fold_left maximum t x)
  end.

(** Column [j] of a list of vectors. *)
Definition column (j : nat) (a : list (list float)) : list float :=
  map (fun f => nth j f NaN) a.

(** Population standard deviation of one vector. *)
Definition std1 `{Library} (xs : list float) : float :=
  let m := mean xs in
  sqrt (mean (map (fun x => let d := fsub x m in fmul d d) xs)).

(** [np.std(a, axis=0)] on vectors of one length. *)
Definition std_axis0 `{Library} (a : list (list float)) : list float :=
  map (fun j => std1 (column j a)) (seq 0 (length (hd [] a))).

Definition same_lengths (a : list (list float)) : bool :=
  forallb (fun f => Nat.eqb (length f) (length (hd [] a))) a.

(** [np.average(a, axis=0, weights=w)]: the weighted column sums divided
    by the sum of the weights.  Vectors of different lengths do not form
    an array, and weights that sum to zero are refused. *)
Definition average_axis0 `{Library} (a : list (list float))
    (w : list float) : result (list float) :=
  if negb (same_lengths a) then Raise ValueError
  else if negb (Nat.eqb (length w) (length a)) then Raise ValueError
  else
    let scl := np_sum w in
    if feqb scl (Fin 0) then Raise ZeroDivisionError
    else Ok (map (fun j => fdiv (np_sum (zip_with fmul (column j a) w)) scl)
                 (seq 0 (length (hd [] a)))).

(** [np.average(a, weights=w)] on a vector. *)
Definition average `{Library} (a w : list float) : result float :=
  if negb (Nat.eqb (length w) (length a)) then Raise TypeError
  else
    let scl := np_sum w in
    if feqb scl (Fin 0) then Raise ZeroDivisionError
    else Ok (fdiv (np_sum (zip_with fmul a w)) scl).

(** [np.convolve(a, v, mode='valid')]: the longer argument is slid over
    the reversed shorter one. *)
Definition convolve_valid `{Library} (a v : list float)
  : result (list float) :=
  let '(a, v) := if (length a <? length v)%nat then (v, a) else (a, v) in
  match a, v with
  | [], _ | _, [] => Raise ValueError
  | _, _ =>
      Ok (map (fun k => np_sum (zip_with fmul (take (length v) (drop k a))
                                         (rev v)))
              (seq 0 (length a - length v + 1)))
  end.

End np.

(** ** Python values, frames and segments *)

Inductive value : Type :=
| VInt (z : Z)
| VFloat (x : float)
| VStr (s : string)
| VArray (xs : list float)
| VPair (a b : value).

Record Row : Type := mkRow {
  origin : string;
  destination : string;
  airline : string;
  date : Z;
  price : float;
  days_to_departure : float;
  occupancy_rate : float;
  period : option Z;
  demand_cluster : option Z
}.

Record DataFrame : Type := mkFrame {
  columns : list string;
  rows : list Row
}.

(** [len(df)] *)
Definition len (df : DataFrame) : Z := Z.of_nat (length (rows df)).

(** [df.copy()]: a fresh frame with the same content. *)
Definition copy (df : DataFrame) : DataFrame :=
  {| columns := columns df; rows := rows df |}.

Definition add_column (c : string) (cs : list string) : list string :=
  if bool_decide (c ∈ cs) then cs else cs ++ [c].

(** [df['period'] = col] for a column [col] computed row by row from
    [df] itself. *)
Definition set_period (df : DataFrame) (col : Row -> Z) : DataFrame :=
  {| columns := add_column "period" (columns df);
     rows := map (fun r =>
       mkRow (origin r) (destination r) (airline r) (date r) (price r)
             (days_to_departure r) (occupancy_rate r)
             (Some (col r)) (demand_cluster r)) (rows df) |}.

(** [df['demand_cluster'] = col] for an array [col]; pandas raises on a
    length mismatch. *)
Definition set_demand_cluster (df : DataFrame) (col : list Z)
  : result DataFrame :=
  if negb (Nat.eqb (length col) (length (rows df))) then Raise ValueError
  else Ok {| columns := add_column "demand_cluster" (columns df);
             rows := zip_with (fun r c =>
               mkRow (origin r) (destination r) (airline r) (date r) (price r)
                     (days_to_departure r) (occupancy_rate r)
                     (period r) (Some c)) (rows df) col |}.

(** [df.groupby(key)]: one frame per distinct key, keys in increasing
    order, rows in their original order; rows without a key are dropped,
    so no group is empty. *)
Section GroupBy.
Context {K : Type} `{EqDecision K} (leb : K -> K -> bool).

Fixpoint insert_key (k : K) (ks : list K) : list K :=
  match ks with
  | [] => [k]
  | x :: t =>
      if decide (k = x) then ks
      else if leb k x then k :: ks
      else x :: insert_key k t
  end.

Definition sorted_keys (l : list K) : list K := foldr insert_key [] l.

Definition groupby (key : Row -> option K) (df : DataFrame)
  : list (K * DataFrame) :=
  map (fun k => (k, {| columns := columns df;
                       rows := filter (fun r => key r = Some k) (rows df) |}))
      (sorted_keys (omap key (rows df))).
End GroupBy.

Definition pair_leb (a b : string * string) : bool :=
  if decide (a.1 = b.1) then String.leb a.2 b.2 else String.leb a.1 b.1.

Record DataSegment : Type := mkSegment {
  segment_id : string;
  data : DataFrame;
  metadata : gmap string value;
  segment_type : string
}.

(** ** Divide: [DataSegmenter] *)

Module DataSegmenter.
Section Segmenter.
Context `{Library} (min_segment_size : Z).

(** [Series.min()] and [Series.max()] of a date column. *)
Definition date_min (ds : list Z) : Z := foldr Z.min (hd 0 ds) ds.
Definition date_max (ds : list Z) : Z := foldr Z.max (hd 0 ds) ds.

(** [Series.mean()], which skips NaN. *)
Definition series_mean (xs : list float) : float :=
  np.mean (filter (fun x => is_nan x = false) xs).

Definition route_segment (g : (string * string) * DataFrame)
  : option DataSegment :=
  let '((origin, dest), group) := g in
  if min_segment_size <=? len group then
    Some {| segment_id := "route_" +:+ origin +:+ "_" +:+ dest;
            data := copy group;
            metadata := {[ "origin" := VStr origin;
                           "destination" := VStr dest;
                           "size" := VInt (len group) ]};
            segment_type := "route" |}
  else None.

Definition segment_by_route (df : DataFrame) : list DataSegment :=
  omap route_segment
    (groupby pair_leb (fun r => Some (origin r, destination r)) df).

Definition temporal_segment (freq : string) (g : Z * DataFrame)
  : option DataSegment :=
  let '(period, group) := g in
  if min_segment_size <=? len group then
    Some {| segment_id := "temporal_" +:+ period_str freq period;
            data := copy group;
            metadata :=
              {[ "period" := VStr (period_str freq period);
                 "size" := VInt (len group);
                 "date_range" :=
                   VPair (VInt (date_min (map date (rows group))))
                         (VInt (date_max (map date (rows group)))) ]};
            segment_type := "temporal" |}
  else None.

(** Returns the segments and the frame [df] has become. *)
Definition segment_by_temporal (df : DataFrame) (freq : string)
  : list DataSegment * DataFrame :=
  let df := set_period df (fun r => to_period freq (date r)) in
  (omap (temporal_segment freq) (groupby Z.leb period df), df).

Definition airline_segment (g : string * DataFrame) : option DataSegment :=
  let '(airline, group) := g in
  if min_segment_size <=? len group then
    Some {| segment_id := "airline_" +:+ airline;
            data := copy group;
            metadata := {[ "airline" := VStr airline;
                           "size" := VInt (len group) ]};
            segment_type := "airline" |}
  else None.

Definition segment_by_airline (df : DataFrame) : list DataSegment :=
  omap airline_segment
    (groupby String.leb (fun r => Some (airline r)) df).

Definition demand_segment (g : Z * DataFrame) : option DataSegment :=
  let '(cluster_id, group) := g in
  if min_segment_size <=? len group then
    Some {| segment_id := "demand_" +:+ pretty cluster_id;
            data := copy group;
            metadata :=
              {[ "cluster_id" := VInt cluster_id;
                 "size" := VInt (len group);
                 "avg_occupancy" :=
                   VFloat (series_mean (map occupancy_rate (rows group))) ]};
            segment_type := "demand_pattern" |}
  else None.

(** Python's [a // b] on integers. *)
Definition floordiv (a b : Z) : result Z :=
  if b =? 0 then Raise ZeroDivisionError else Ok (a / b).

(** Returns the segments and the frame [df] has become. *)
Definition segment_by_demand_pattern (df : DataFrame)
  : result (list DataSegment * DataFrame) :=
  let features :=
    map (fun r => (days_to_departure r, occupancy_rate r, price r))
        (rows df) in
  q ← floordiv (len df) min_segment_size;
  let n_clusters := Z.min 5 q in
  if n_clusters <? 2 then Ok ([], df)
  else
    labels ← match KMeans_fit_predict n_clusters features with
             | Some l => Ok l
             | None => Raise ModelError
             end;
    df ← set_demand_cluster df labels;
    Ok (omap demand_segment (groupby Z.leb demand_cluster df), df).

(** The temporal segments of one route segment, renamed after it and
    with its metadata written over their own. *)
Definition refine_route (route_segment : DataSegment) : list DataSegment :=
  map (fun temp_seg =>
         {| segment_id :=
              segment_id route_segment +:+ "_" +:+ segment_id temp_seg;
            data := data temp_seg;
            metadata := metadata route_segment ∪ metadata temp_seg;
            segment_type := segment_type temp_seg |})
      (segment_by_temporal (data route_segment) "W").1.

Definition hierarchical_segmentation (df : DataFrame) : list DataSegment :=
  concat (map refine_route (segment_by_route df)).

End Segmenter.
End DataSegmenter.

(** ** Conquer: [SegmentForecaster] *)

Module SegmentForecaster.
Section Forecaster.
Context `{Library}.

(** [segment.data['price'].values] *)
Definition prices (segment : DataSegment) : list float :=
  map price (rows (data segment)).

Definition forecast_moving_average (segment : DataSegment) (horizon : Z)
    (window : Z) : result (list float) :=
  ones ← np.ones window;
  ma ← np.convolve_valid (prices segment)
         (map (fun x => fdiv x (of_int window)) ones);
  let last_ma :=
    match last ma with
    | Some x => x
    | None => np.mean (prices segment)
    end in
  np.full horizon last_ma.

(** The default [window=7]. *)
Definition default_window : Z := 7.

Definition forecast_arima (segment : DataSegment) (horizon : Z)
  : result (list float) :=
  match ARIMA_fit_forecast (prices segment) horizon with
  | Some forecast => Ok forecast
  | None => forecast_moving_average segment horizon default_window
  end.

Definition forecast_exponential_smoothing (segment : DataSegment)
    (horizon : Z) : result (list float) :=
  match ExponentialSmoothing_fit_forecast (prices segment) horizon with
  | Some forecast => Ok forecast
  | None => forecast_moving_average segment horizon default_window
  end.

(** One [try: ...append... except: pass] step of the ensemble. *)
Definition try_member (m : result (list float)) (weight : float)
    (acc : list (list float) * list float)
  : list (list float) * list float :=
  match m with
  | Ok forecast => (acc.1 ++ [forecast], acc.2 ++ [weight])
  | Raise _ => acc
  end.

(** The members collected by [ensemble_forecast] and their static
    weights, before normalisation. *)
Definition ensemble_members (segment : DataSegment) (horizon : Z)
  : result (list (list float) * list float) :=
  let acc := ([], []) in
  let acc := try_member (forecast_arima segment horizon) (Fin 0.4) acc in
  let acc :=
    try_member (forecast_exponential_smoothing segment horizon)
               (Fin 0.3) acc in
  ma_forecast ← forecast_moving_average segment horizon default_window;
  Ok (acc.1 ++ [ma_forecast], acc.2 ++ [Fin 0.3]).

(** The confidence computed from the members and the ensemble. *)
Definition agreement (forecasts : list (list float))
    (ensemble : list float) : float :=
  if (1 <? length forecasts)%nat then
    let std := np.mean (np.std_axis0 forecasts) in
    let mean := np.mean ensemble in
    if fltb (Fin 0) mean then py_max0 (fsub (Fin 1) (fdiv std mean))
    else Fin 0.5
  else Fin 0.6.

Definition ensemble_forecast (segment : DataSegment) (horizon : Z)
  : result (list float * float) :=
  '(forecasts, weights) ← ensemble_members segment horizon;
  let weights := map (fun w => fdiv w (py_sum weights)) weights in
  ensemble ← np.average_axis0 forecasts weights;
  Ok (ensemble, agreement forecasts ensemble).

End Forecaster.
End SegmentForecaster.

(** ** Combine: [ForecastMerger] *)

(** One entry of [segment_forecasts]: the dict with the keys
    [segment_id], [forecast], [confidence] and [metadata]. *)
Record SegmentForecast : Type := mkForecast {
  sf_segment_id : string;
  sf_forecast : list float;
  sf_confidence : float;
  sf_metadata : gmap string value
}.

Module ForecastMerger.
Section Merger.
Context `{Library}.

(** A metadata value used as a number. *)
Definition as_number (v : value) : result float :=
  match v with
  | VInt z => Ok (of_int z)
  | VFloat x => Ok x
  | _ => Raise TypeError
  end.

(** [sf['metadata'].get('size', 1)] *)
Definition size_of (sf : SegmentForecast) : value :=
  default (VInt 1) (sf_metadata sf !! "size").

Definition segment_sizes (segment_forecasts : list SegmentForecast)
  : result (list float) :=
  mapM (fun sf => as_number (size_of sf)) segment_forecasts.

(** The weights of [_weighted_average]. *)
Definition size_weights (segment_forecasts : list SegmentForecast)
  : result (list float) :=
  sizes ← segment_sizes segment_forecasts;
  let total_weight := py_sum sizes in
  mapM (fun size => py_truediv size total_weight) sizes.

Definition _weighted_average (segment_forecasts : list SegmentForecast)
  : result (gmap string value) :=
  weights ← size_weights segment_forecasts;
  merged_forecast ←
    np.average_axis0 (map sf_forecast segment_forecasts) weights;
  avg_confidence ←
    np.average (map sf_confidence segment_forecasts) weights;
  Ok {[ "forecast" := VArray merged_forecast;
        "confidence" := VFloat avg_confidence;
        "num_segments" := VInt (Z.of_nat (length segment_forecasts));
        "strategy" := VStr "weighted_average" ]}.

(** The weights of [_confidence_based]. *)
Definition confidence_weights (segment_forecasts : list SegmentForecast)
  : list float :=
  let confidences := map sf_confidence segment_forecasts in
  map (fun c => fdiv c (np_sum confidences)) confidences.

(** What [_confidence_based] computes: forecast, confidence, weights. *)
Definition confidence_merge (segment_forecasts : list SegmentForecast)
  : result (list float * float * list float) :=
  let weights := confidence_weights segment_forecasts in
  merged_forecast ←
    np.average_axis0 (map sf_forecast segment_forecasts) weights;
  confidence ← np.max (map sf_confidence segment_forecasts);
  Ok (merged_forecast, confidence, weights).

Definition _confidence_based (segment_forecasts : list SegmentForecast)
  : result (gmap string value) :=
  '(merged_forecast, confidence, weights) ←
    confidence_merge segment_forecasts;
  Ok {[ "forecast" := VArray merged_forecast;
        "confidence" := VFloat confidence;
        "num_segments" := VInt (Z.of_nat (length segment_forecasts));
        "strategy" := VStr "confidence_based";
        "segment_contributions" := VArray weights ]}.

(** [s.split('_')] *)
Fixpoint split_underscore (s : string) : list string :=
  match s with
  | EmptyString => [EmptyString]
  | String c rest =>
      if Ascii.eqb c "_"%char then EmptyString :: split_underscore rest
      else match split_underscore rest with
           | [] => [String c EmptyString]
           | part :: parts => String c part :: parts
           end
  end.

(** ['_'.join(parts)] *)
Fixpoint join_underscore (parts : list string) : string :=
  match parts with
  | [] => EmptyString
  | [part] => part
  | part :: rest => part +:+ "_" +:+ join_underscore rest
  end.

Definition group_key (sf : SegmentForecast) : string :=
  join_underscore (take 2 (split_underscore (sf_segment_id sf))).

(** [hierarchy[key].append(sf)] on a dict that keeps insertion order. *)
Fixpoint hierarchy_add (key : string) (sf : SegmentForecast)
    (hierarchy : list (string * list SegmentForecast))
  : list (string * list SegmentForecast) :=
  match hierarchy with
  | [] => [(key, [sf])]
  | (k, group) :: rest =>
      if decide (k = key) then (k, group ++ [sf]) :: rest
      else (k, group) :: hierarchy_add key sf rest
  end.

Definition _hierarchical_merge (segment_forecasts : list SegmentForecast)
  : result (gmap string value) :=
  let hierarchy :=
    fold_left (fun h sf => hierarchy_add (group_key sf) sf h)
              segment_forecasts [] in
  group_forecasts ← mapM (fun g => confidence_merge g.2) hierarchy;
  let final_forecasts := map (fun gf => gf.1.1) group_forecasts in
  let final_confidences := map (fun gf => gf.1.2) group_forecasts in
  let weights :=
    map (fun c => fdiv c (py_sum final_confidences)) final_confidences in
  merged_forecast ← np.average_axis0 final_forecasts weights;
  Ok {[ "forecast" := VArray merged_forecast;
        "confidence" := VFloat (np.mean final_confidences);
        "num_segments" := VInt (Z.of_nat (length segment_forecasts));
        "num_groups" := VInt (Z.of_nat (length hierarchy));
        "strategy" := VStr "hierarchical" ]}.

Definition merge (segment_forecasts : list SegmentForecast)
    (strategy : string) : result (gmap string value) :=
  if decide (strategy = "weighted_average") then
    _weighted_average segment_forecasts
  else if decide (strategy = "confidence_based") then
    _confidence_based segment_forecasts
  else if decide (strategy = "hierarchical") then
    _hierarchical_merge segment_forecasts
  else Raise ValueError.

End Merger.
End ForecastMerger.

(** ** The orchestrator: [DivideAndConquerForecaster] *)

Module DivideAndConquerForecaster.
Section Orchestrator.
Context `{Library} (min_segment_size : Z).

(** Phase 1 of [predict]: the segments and the frame [df] has become. *)
Definition divide (df : DataFrame) (segmentation_strategy : string)
  : result (list DataSegment * DataFrame) :=
  if decide (segmentation_strategy = "route") then
    Ok (DataSegmenter.segment_by_route min_segment_size df, df)
  else if decide (segmentation_strategy = "temporal") then
    Ok (DataSegmenter.segment_by_temporal min_segment_size df "M")
  else if decide (segmentation_strategy = "hierarchical") then
    Ok (DataSegmenter.hierarchical_segmentation min_segment_size df, df)
  else if decide (segmentation_strategy = "demand_pattern") then
    DataSegmenter.segment_by_demand_pattern min_segment_size df
  else Raise ValueError.

(** One turn of the loop of phase 2; a segment whose forecast raises is
    left out. *)
Definition conquer_one (horizon : Z) (segment : DataSegment)
  : option SegmentForecast :=
  match SegmentForecaster.ensemble_forecast segment horizon with
  | Ok (forecast, confidence) =>
      Some {| sf_segment_id := segment_id segment;
              sf_forecast := forecast;
              sf_confidence := confidence;
              sf_metadata := metadata segment |}
  | Raise _ => None
  end.

Definition predict (df : DataFrame) (horizon : Z)
    (segmentation_strategy : string) : result (gmap string value) :=
  '(segments, df) ← divide df segmentation_strategy;
  match segments with
  | [] =>
      '(forecast, confidence) ←
        SegmentForecaster.ensemble_forecast
          (mkSegment "global" df ∅ "global") horizon;
      Ok {[ "forecast" := VArray forecast;
            "confidence" := VFloat confidence;
            "strategy" := VStr "global";
            "num_segments" := VInt 0 ]}
  | _ =>
      let segment_forecasts := omap (conquer_one horizon) segments in
      merged_result ←
        ForecastMerger.merge segment_forecasts "confidence_based";
      Ok (<["segmentation_strategy" := VStr segmentation_strategy]>
            merged_result)
  end.

End Orchestrator.
End DivideAndConquerForecaster.

(** ** Predicates of the specification *)

(** A segment whose recorded size reaches the threshold and whose record
    set is not empty. *)
Definition well_sized (min_segment_size : Z) (s : DataSegment) : Prop :=
  (exists n, metadata s !! "size" = Some (VInt n) /\ min_segment_size <= n)
  /\ rows (data s) <> [].

(** The cells of a record in the columns of the schema, without the two
    helper columns. *)
Definition base_cells (r : Row)
  : string * string * string * Z * float * float * float :=
  (origin r, destination r, airline r, date r, price r,
   days_to_departure r, occupancy_rate r).

(** Not negative: a non-negative rational, +inf, or NaN. *)
Definition not_negative (a : float) : Prop :=
  match a with
  | Fin q => (0 <= q)%Q
  | PInf | NaN => True
  | NInf => False
  end.

(** The exact sum of rationals. *)
Definition Qsum (qs : list Q) : Q := foldr Qplus 0%Q qs.

(** Modelled from the words of the specification, for comparison with
    [_confidence_based]: the weighted elementwise average of vectors,
    entry by entry the weighted sum over the sum of the weights. *)
Definition spec_weighted_average `{Library} (forecasts : list (list float))
    (weights : list float) : list float :=
  map (fun j =>
         fdiv (np_sum (zip_with fmul (np.column j forecasts) weights))
              (np_sum weights))
      (seq 0 (length (hd [] forecasts))).

(** A binary64 number: a rational that rounding leaves alone. *)
Definition representable `{Library} (q : Q) : Prop :=
  feq (round64 q) (Fin q).

(** [a <= b] on numbers that are not NaN. *)
Definition fle (a b : float) : Prop :=
  is_nan a = false /\ is_nan b = false /\ fltb b a = false.

(** The dictionary [predict] returns on the degenerate path, and the one it
    returns after the merge. *)
Definition global_result (forecast : list float) (confidence : float)
  : gmap string value :=
  {[ "forecast" := VArray forecast;
     "confidence" := VFloat confidence;
     "strategy" := VStr "global";
     "num_segments" := VInt 0 ]}.

Definition merged_result (strategy : string) (n : nat)
    (forecast : list float) (confidence : float) (weights : list float)
  : gmap string value :=
  <["segmentation_strategy" := VStr strategy]>
    {[ "forecast" := VArray forecast;
       "confidence" := VFloat confidence;
       "num_segments" := VInt (Z.of_nat n);
       "strategy" := VStr "confidence_based";
       "segment_contributions" := VArray weights ]}.

(** ** Further notions the properties are stated with *)

(** One weight of the moving-average window, [1 / window] for the default
    window. *)
Definition seventh `{Library} : float := fdiv (Fin 1) (of_int 7).



(** The dictionary of groups [_hierarchical_merge] builds in its loop. *)
Definition hierarchy_of (segment_forecasts : list SegmentForecast)
  : list (string * list SegmentForecast) :=
  fold_left (fun h sf =>
               ForecastMerger.hierarchy_add (ForecastMerger.group_key sf) sf h)
            segment_forecasts [].

(** Distinct keys, and under each key a non-empty group of forecasts
    with that key. *)
Definition keyed (h : list (string * list SegmentForecast)) : Prop :=
  NoDup (map fst h)
  /\ Forall (fun g => g.2 <> []
                      /\ Forall (fun sf => ForecastMerger.group_key sf = g.1)
                                g.2) h.

(** Whether a string holds the separator of segment identifiers. *)
Fixpoint has_underscore (s : string) : bool :=
  match s with
  | EmptyString => false
  | String c rest => Ascii.eqb c "_"%char || has_underscore rest
  end.

(** A segment that records the number of its own records. *)
Definition records_own_size (s : DataSegment) : Prop :=
  metadata s !! "size" = Some (VInt (len (data s))).

(** The number of records in a list of segments. *)
Definition total_records (segments : list DataSegment) : nat :=
  sum_list_with (fun s => length (rows (data s))) segments.

(** The order a key column is sorted by, and being strictly below in
    it. *)
Definition total_order {K : Type} (leb : K -> K -> bool) : Prop :=
  (forall a b, leb a b = true \/ leb b a = true)
  /\ (forall a b, leb a b = true -> leb b a = true -> a = b)
  /\ (forall a b c, leb a b = true -> leb b c = true -> leb a c = true).

Definition below {K : Type} (leb : K -> K -> bool) (a b : K) : Prop :=
  leb a b = true /\ a <> b.

(** ** A concrete library, for running the model *)

Module Demo.

(** The square root rounded down to a multiple of 1/(100 * den). *)
Definition sqrt_floor (q : Q) : Q :=
  Z.sqrt (Qnum q * Zpos (Qden q) * 10000) # (Qden q * 100).

Definition sqrt_floor_nonneg (q : Q) : (0 <= sqrt_floor q)%Q.
Proof.
  unfold sqrt_floor, Qle; simpl.
  pose proof (Z.sqrt_nonneg (Qnum q * Z.pos (Qden q) * 10000)); lia.
Qed.

Definition always_fails (prices : list float) (horizon : Z)
  : option (list float) := None.

(** A model that repeats the last price. *)
Definition naive (prices : list float) (horizon : Z)
  : option (list float) :=
  match last prices with
  | Some p => if horizon <? 0 then None
              else Some (replicate (Z.to_nat horizon) p)
  | None => None
  end.

(** Clusters by the parity of the position. *)
Definition alternate (k : Z) (features : list (float * float * float))
  : option (list Z) :=
  Some (imap (fun i _ => Z.of_nat i mod 2) features).

Definition week (freq : string) (d : Z) : Z := d / 7.

(** Arithmetic without rounding error: every rational is taken for a
    binary64 number. *)
Definition exact (q : Q) : float := Fin q.

Definition exact_monotone (p q : Q) :
  (p <= q)%Q -> fltb (exact q) (exact p) = false.
Proof.
  intros Hle. unfold exact, fltb, Qltb.
  destruct (q ?= p)%Q eqn:E; try reflexivity.
  apply Qlt_alt in E. exfalso. exact (Qlt_not_le _ _ E Hle).
Qed.

Definition exact_exact (m e : Z) :
  Z.abs m <= 2 ^ 53 -> -1074 <= e <= 970 ->
  feq (exact (inject_Z m * 2 ^ e)) (Fin (inject_Z m * 2 ^ e)).
Proof. intros _ _. apply Qeq_refl. Qed.

Definition exact_error (q r : Q) :
  exact q = Fin r ->
  (Qabs (r - q) <= unit_roundoff * Qabs q + half_tiny)%Q.
Proof.
  intros [= <-].
  assert (q - q == 0)%Q as -> by ring.
  change (Qabs 0) with 0%Q.
  pose proof (Qabs_nonneg q) as Hq.
  assert (0 <= unit_roundoff)%Q by discriminate.
  assert (0 <= half_tiny)%Q by discriminate.
  assert (0 <= unit_roundoff * Qabs q)%Q by (apply Qmult_le_0_compat; assumption).
  lra.
Qed.

Definition exact_sum (a b r : Q) :
  feq (exact a) (Fin a) -> feq (exact b) (Fin b) ->
  exact (a + b) = Fin r ->
  (Qabs (r - (a + b)) <= unit_roundoff * Qabs (a + b))%Q.
Proof.
  intros _ _ [= <-].
  assert (a + b - (a + b) == 0)%Q as -> by ring.
  change (Qabs 0) with 0%Q.
  apply Qmult_le_0_compat; [discriminate | apply Qabs_nonneg].
Qed.

Definition exact_idem (q r : Q) :
  exact q = Fin r -> feq (exact r) (Fin r).
Proof. intros _. apply Qeq_refl. Qed.

(** An array of up to a million entries is allocated. *)
Definition million : Z := 1000000.

Definition million_window : 7 <= million.
Proof. discriminate. Qed.

(** Both statistical models fail; only the moving average is left. *)
Definition failing_library : Library := {|
  round64 := exact;
  round64_not_nan := fun _ => eq_refl;
  round64_monotone := exact_monotone;
  round64_exact := exact_exact;
  round64_error := exact_error;
  round64_sum := exact_sum;
  round64_idem := exact_idem;
  round64_finite := fun _ _ => I;
  array_limit := million;
  array_limit_window := million_window;
  array_refusal := fun _ => MemoryError;
  sqrtQ := sqrt_floor;
  sqrtQ_nonneg := sqrt_floor_nonneg;
  ARIMA_fit_forecast := always_fails;
  ExponentialSmoothing_fit_forecast := always_fails;
  KMeans_fit_predict := alternate;
  to_period := week;
  period_str := fun _ p => pretty p
|}.

(** The autoregressive model succeeds, exponential smoothing fails. *)
Definition naive_library : Library := {|
  round64 := exact;
  round64_not_nan := fun _ => eq_refl;
  round64_monotone := exact_monotone;
  round64_exact := exact_exact;
  round64_error := exact_error;
  round64_sum := exact_sum;
  round64_idem := exact_idem;
  round64_finite := fun _ _ => I;
  array_limit := million;
  array_limit_window := million_window;
  array_refusal := fun _ => MemoryError;
  sqrtQ := sqrt_floor;
  sqrtQ_nonneg := sqrt_floor_nonneg;
  ARIMA_fit_forecast := naive;
  ExponentialSmoothing_fit_forecast := always_fails;
  KMeans_fit_predict := alternate;
  to_period := week;
  period_str := fun _ p => pretty p
|}.

Definition row (o d : string) (day : Z) (p : Q) : Row :=
  mkRow o d "AI" day (Fin p) (Fin 30) (Fin 0.5) None None.

Definition schema : list string :=
  ["origin"; "destination"; "airline"; "date"; "price";
   "days_to_departure"; "occupancy_rate"].

(** Three records on one route and one on another. *)
Definition df : DataFrame :=
  mkFrame schema [row "DEL" "BOM" 1 100; row "DEL" "BOM" 2 110;
                  row "BLR" "BOM" 3 90; row "DEL" "BOM" 3 120].

(** No record at all. *)
Definition empty_df : DataFrame := mkFrame schema [].

(** Records whose prices cancel out. *)
Definition zero_df : DataFrame :=
  mkFrame schema [row "DEL" "BOM" 1 10; row "DEL" "BOM" 2 (-10)].

Definition whole (df : DataFrame) : DataSegment :=
  mkSegment "global" df ∅ "global".

(** Segment forecasts as [predict] builds them. *)
Definition sf (id : string) (forecast : list Q) (confidence : Q)
    (size : Z) : SegmentForecast :=
  mkForecast id (map Fin forecast) (Fin confidence)
             {[ "size" := VInt size ]}.

Definition two_forecasts : list SegmentForecast :=
  [sf "route_DEL_BOM" [100; 104]%Q 0.5 10;
   sf "route_BLR_BOM" [90; 96]%Q 1 30].

(** A single segment whose members disagreed: confidence 0. *)
Definition doubtful : list SegmentForecast :=
  [sf "route_DEL_BOM" [100; 104]%Q 0 10].

Definition ok_or {A} (d : A) (m : result A) : A :=
  match m with Ok a => a | Raise _ => d end.

Definition is_ok {A} (m : result A) : bool :=
  match m with Ok _ => true | Raise _ => false end.

End Demo.

(** * Properties *)

(** ** Results *)

Lemma is_ok_eq {A} (d : A) (m : result A) :
  Demo.is_ok m = true -> m = Ok (Demo.ok_or d m).
Proof. destruct m; [reflexivity | discriminate]. Defined.

Lemma is_ok_pair {A B} (d : A * B) (m : result (A * B)) :
  Demo.is_ok m = true -> m = Ok ((Demo.ok_or d m).1, (Demo.ok_or d m).2).
Proof. destruct m as [[a b]|]; [reflexivity | discriminate]. Defined.

Lemma bind_Ok {A B} (m : result A) (k : A -> result B) (b : B) :
  m ≫= k = Ok b -> exists a, m = Ok a /\ k a = Ok b.
Proof. destruct m as [a|e]; simpl; [eauto | discriminate]. Qed.

(** ** Grouping *)

Section GroupByFacts.
Context {K : Type} `{EqDecision K} (leb : K -> K -> bool).

Lemma elem_of_insert_key (k x : K) ks :
  x ∈ insert_key leb k ks <-> x = k \/ x ∈ ks.
Proof.
  induction ks as [|y t IH]; simpl.
  - rewrite list_elem_of_singleton, elem_of_nil. tauto.
  - destruct (decide (k = y)) as [->|Hne]; [rewrite elem_of_cons; tauto|].
    destruct (leb k y); [rewrite !elem_of_cons; tauto|].
    rewrite !elem_of_cons, IH. tauto.
Qed.

Lemma elem_of_sorted_keys (x : K) l : x ∈ sorted_keys leb l <-> x ∈ l.
Proof.
  induction l as [|y t IH]; simpl; [reflexivity|].
  rewrite elem_of_insert_key, IH, elem_of_cons. tauto.
Qed.

(** No group of [groupby] is empty. *)
Lemma groupby_nonempty (key : Row -> option K) df k g :
  (k, g) ∈ groupby leb key df -> rows g <> [].
Proof.
  unfold groupby. intros Hin.
  apply list_elem_of_fmap in Hin as (k' & Heq & Hk).
  inversion Heq; subst; clear Heq; simpl.
  apply elem_of_sorted_keys, list_elem_of_omap in Hk as (r & Hr & Hkey).
  intros Hnil.
  assert (r ∈ filter (fun r => key r = Some k') (rows df)) as Hf
    by (apply list_elem_of_filter; auto).
  rewrite Hnil in Hf. inversion Hf.
Qed.

(** Grouping the empty frame gives no group. *)
Lemma groupby_empty (key : Row -> option K) df :
  rows df = [] -> groupby leb key df = [].
Proof. unfold groupby. intros ->. reflexivity. Qed.
End GroupByFacts.

(** ** Divide: every segment reaches the threshold and is not empty *)

Section SegmenterFacts.
Context `{Library} (min_segment_size : Z).
Import DataSegmenter.

Lemma route_segment_well_sized g s :
  rows g.2 <> [] ->
  route_segment min_segment_size g = Some s ->
  well_sized min_segment_size s.
Proof.
  destruct g as [[o d] grp]; simpl; intros Hne. unfold route_segment.
  destruct (min_segment_size <=? len grp) eqn:E; [|discriminate].
  intros [= <-]. split; simpl; [|exact Hne].
  exists (len grp). split; [reflexivity | lia].
Qed.

Lemma temporal_segment_well_sized freq g s :
  rows g.2 <> [] ->
  temporal_segment min_segment_size freq g = Some s ->
  well_sized min_segment_size s.
Proof.
  destruct g as [p grp]; simpl; intros Hne. unfold temporal_segment.
  destruct (min_segment_size <=? len grp) eqn:E; [|discriminate].
  intros [= <-]. split; simpl; [|exact Hne].
  exists (len grp). split; [reflexivity | lia].
Qed.

Lemma airline_segment_well_sized g s :
  rows g.2 <> [] ->
  airline_segment min_segment_size g = Some s ->
  well_sized min_segment_size s.
Proof.
  destruct g as [a grp]; simpl; intros Hne. unfold airline_segment.
  destruct (min_segment_size <=? len grp) eqn:E; [|discriminate].
  intros [= <-]. split; simpl; [|exact Hne].
  exists (len grp). split; [reflexivity | lia].
Qed.

Lemma demand_segment_well_sized g s :
  rows g.2 <> [] ->
  demand_segment min_segment_size g = Some s ->
  well_sized min_segment_size s.
Proof.
  destruct g as [c grp]; simpl; intros Hne. unfold demand_segment.
  destruct (min_segment_size <=? len grp) eqn:E; [|discriminate].
  intros [= <-]. split; simpl; [|exact Hne].
  exists (len grp). split; [reflexivity | lia].
Qed.

(** The segments kept from the groups of a [groupby]. *)
Lemma kept_groups_well_sized {K} `{EqDecision K} (leb : K -> K -> bool)
    (key : Row -> option K) (keep : K * DataFrame -> option DataSegment)
    frame :
  (forall g s, rows g.2 <> [] -> keep g = Some s ->
               well_sized min_segment_size s) ->
  Forall (well_sized min_segment_size)
         (omap keep (groupby leb key frame)).
Proof.
  intros Hkeep. apply Forall_forall. intros s Hs.
  apply list_elem_of_omap in Hs as ([k g] & Hin & Hk).
  apply (Hkeep (k, g)); [|exact Hk].
  simpl. eapply groupby_nonempty; exact Hin.
Qed.

Lemma segment_by_route_well_sized frame :
  Forall (well_sized min_segment_size)
         (segment_by_route min_segment_size frame).
Proof.
  apply kept_groups_well_sized; exact route_segment_well_sized.
Qed.

Lemma segment_by_temporal_well_sized frame freq :
  Forall (well_sized min_segment_size)
         (segment_by_temporal min_segment_size frame freq).1.
Proof.
  apply kept_groups_well_sized. exact (temporal_segment_well_sized freq).
Qed.

Lemma segment_by_airline_well_sized frame :
  Forall (well_sized min_segment_size)
         (segment_by_airline min_segment_size frame).
Proof.
  apply kept_groups_well_sized; exact airline_segment_well_sized.
Qed.

Lemma segment_by_demand_pattern_well_sized frame segs frame' :
  segment_by_demand_pattern min_segment_size frame = Ok (segs, frame') ->
  Forall (well_sized min_segment_size) segs.
Proof.
  unfold segment_by_demand_pattern. intros Hrun.
  apply bind_Ok in Hrun as (q & _ & Hrun).
  destruct (Z.min 5 q <? 2); [injection Hrun as <- _; constructor|].
  apply bind_Ok in Hrun as (labels & _ & Hrun).
  apply bind_Ok in Hrun as (frame2 & _ & Hrun).
  injection Hrun as <- _.
  apply kept_groups_well_sized; exact demand_segment_well_sized.
Qed.

Lemma refine_route_well_sized route_seg :
  well_sized min_segment_size route_seg ->
  Forall (well_sized min_segment_size)
         (refine_route min_segment_size route_seg).
Proof.
  intros [(n & Hsize & Hn) _]. unfold refine_route.
  apply Forall_forall. intros s Hs.
  apply list_elem_of_fmap in Hs as (t & -> & Ht).
  pose proof (segment_by_temporal_well_sized (data route_seg) "W") as Hall.
  rewrite Forall_forall in Hall. destruct (Hall t Ht) as [_ Hrows].
  split; simpl; [|exact Hrows].
  exists n. split; [|exact Hn].
  apply lookup_union_Some_l. exact Hsize.
Qed.

Lemma hierarchical_segmentation_well_sized frame :
  Forall (well_sized min_segment_size)
         (hierarchical_segmentation min_segment_size frame).
Proof.
  unfold hierarchical_segmentation.
  apply Forall_forall. intros s Hs.
  apply list_elem_of_In, in_concat in Hs as (l & Hl & Hs).
  apply list_elem_of_In in Hs.
  apply list_elem_of_In, list_elem_of_fmap in Hl as (route_seg & -> & Hroute).
  pose proof (segment_by_route_well_sized frame) as Hall.
  rewrite Forall_forall in Hall.
  pose proof (refine_route_well_sized route_seg (Hall _ Hroute)) as Href.
  rewrite Forall_forall in Href. exact (Href s Hs).
Qed.

(** C1.  Whatever the dataset and the strategy (route, temporal,
    demand pattern, hierarchical), every segment the segmenter returns
    records a size of at least [min_segment_size] and holds at least one
    record. *)
Theorem segmenter_segments_well_sized (frame : DataFrame) (freq : string) :
  Forall (well_sized min_segment_size)
         (segment_by_route min_segment_size frame)
  /\ Forall (well_sized min_segment_size)
            (segment_by_temporal min_segment_size frame freq).1
  /\ match segment_by_demand_pattern min_segment_size frame with
     | Ok (segments, _) => Forall (well_sized min_segment_size) segments
     | Raise _ => True
     end
  /\ Forall (well_sized min_segment_size)
            (hierarchical_segmentation min_segment_size frame).
Proof.
  split; [apply segment_by_route_well_sized|].
  split; [apply segment_by_temporal_well_sized|].
  split; [|apply hierarchical_segmentation_well_sized].
  destruct (segment_by_demand_pattern min_segment_size frame)
    as [[segments frame']|e] eqn:Hrun; [|exact I].
  eapply segment_by_demand_pattern_well_sized; exact Hrun.
Qed.

End SegmenterFacts.

(** ** numpy: lengths *)

Section NumpyLengths.
Context `{Library}.

Lemma full_length n x v : np.full n x = Ok v -> Z.of_nat (length v) = n.
Proof.
  unfold np.full. destruct (n <? 0) eqn:E; [discriminate|].
  destruct (array_limit <? n); [discriminate|].
  intros [= <-]. rewrite length_replicate. lia.
Qed.

(** The window of the moving average is always allocated. *)
Lemma ones_default_window :
  np.ones SegmentForecaster.default_window = Ok (replicate 7 (Fin 1)).
Proof.
  unfold np.ones, np.full, SegmentForecaster.default_window.
  pose proof array_limit_window as Hlimit.
  destruct (array_limit <? 7) eqn:E; [lia | reflexivity].
Qed.

Lemma same_lengths_spec a f :
  np.same_lengths a = true -> f ∈ a -> length f = length (hd [] a).
Proof.
  unfold np.same_lengths. rewrite forallb_forall. intros Hall Hf.
  apply Nat.eqb_eq, Hall, list_elem_of_In, Hf.
Qed.

Lemma average_axis0_Ok a w v :
  np.average_axis0 a w = Ok v ->
  a <> [] /\ length w = length a /\ forall f, f ∈ a -> length f = length v.
Proof.
  unfold np.average_axis0.
  destruct (np.same_lengths a) eqn:Hsame; simpl; [|discriminate].
  destruct (Nat.eqb (length w) (length a)) eqn:Hlen; simpl; [|discriminate].
  apply Nat.eqb_eq in Hlen.
  destruct (feqb (np_sum w) (Fin 0)) eqn:Hscl; [discriminate|].
  intros [= <-]. split; [|split; [exact Hlen|]].
  - intros ->. destruct w; [|discriminate]. discriminate Hscl.
  - intros f Hf. rewrite length_map, length_seq.
    apply same_lengths_spec; assumption.
Qed.
End NumpyLengths.

(** ** Conquer: the ensemble has the length of the horizon *)

Section ForecasterFacts.
Context `{Library}.
Import SegmentForecaster.

Lemma forecast_moving_average_length segment horizon window v :
  forecast_moving_average segment horizon window = Ok v ->
  Z.of_nat (length v) = horizon.
Proof.
  unfold forecast_moving_average. intros Hrun.
  apply bind_Ok in Hrun as (ones & _ & Hrun).
  apply bind_Ok in Hrun as (ma & _ & Hrun).
  eapply full_length; exact Hrun.
Qed.

(** The moving average is always the last member. *)
Lemma ensemble_members_last segment horizon forecasts weights :
  ensemble_members segment horizon = Ok (forecasts, weights) ->
  exists ma,
    forecast_moving_average segment horizon default_window = Ok ma
    /\ ma ∈ forecasts.
Proof.
  unfold ensemble_members. intros Hrun.
  apply bind_Ok in Hrun as (ma & Hma & Hrun).
  injection Hrun as <- _. exists ma. split; [exact Hma|].
  apply elem_of_app. right. apply list_elem_of_singleton. reflexivity.
Qed.

Lemma ensemble_forecast_inv segment horizon ensemble confidence :
  ensemble_forecast segment horizon = Ok (ensemble, confidence) ->
  exists forecasts weights,
    ensemble_members segment horizon = Ok (forecasts, weights)
    /\ np.average_axis0 forecasts
         (map (fun w => fdiv w (py_sum weights)) weights) = Ok ensemble
    /\ confidence = agreement forecasts ensemble.
Proof.
  unfold ensemble_forecast. intros Hrun.
  apply bind_Ok in Hrun as ([forecasts weights] & Hmem & Hrun).
  apply bind_Ok in Hrun as (e & Havg & Hrun).
  injection Hrun as <- <-. eauto.
Qed.

Lemma ensemble_forecast_length segment horizon ensemble confidence :
  ensemble_forecast segment horizon = Ok (ensemble, confidence) ->
  Z.of_nat (length ensemble) = horizon.
Proof.
  intros Hrun.
  apply ensemble_forecast_inv in Hrun as (fs & ws & Hmem & Havg & _).
  apply ensemble_members_last in Hmem as (ma & Hma & Hin).
  apply average_axis0_Ok in Havg as (_ & _ & Hlen).
  rewrite <- (Hlen ma Hin).
  eapply forecast_moving_average_length; exact Hma.
Qed.
End ForecasterFacts.

Section MergerFacts.
Context `{Library}.

Lemma confidence_merge_length segment_forecasts merged confidence weights h :
  ForecastMerger.confidence_merge segment_forecasts
    = Ok (merged, confidence, weights) ->
  (forall sf, sf ∈ segment_forecasts ->
              Z.of_nat (length (sf_forecast sf)) = h) ->
  Z.of_nat (length merged) = h.
Proof.
  unfold ForecastMerger.confidence_merge. intros Hrun Hall.
  apply bind_Ok in Hrun as (m & Havg & Hrun).
  apply bind_Ok in Hrun as (c & _ & Hrun).
  injection Hrun as <- _ _.
  apply average_axis0_Ok in Havg as (Hne & _ & Hlen).
  destruct segment_forecasts as [|sf rest]; [contradiction|].
  rewrite <- (Hlen (sf_forecast sf)); [apply Hall; left|left].
Qed.

Lemma merge_confidence_based segment_forecasts :
  ForecastMerger.merge segment_forecasts "confidence_based"
  = ForecastMerger._confidence_based segment_forecasts.
Proof. reflexivity. Qed.
End MergerFacts.

(** ** The orchestrator *)

Section OrchestratorFacts.
Context `{Library} (min_segment_size : Z).
Import DivideAndConquerForecaster.

(** The two ways [predict] returns. *)
Lemma predict_inv frame horizon strategy res :
  predict min_segment_size frame horizon strategy = Ok res ->
  exists segments frame',
    divide min_segment_size frame strategy = Ok (segments, frame')
    /\ ((segments = []
         /\ exists forecast confidence,
             SegmentForecaster.ensemble_forecast
               (mkSegment "global" frame' ∅ "global") horizon
             = Ok (forecast, confidence)
             /\ res = global_result forecast confidence)
        \/ (segments <> []
            /\ exists forecast confidence weights,
                ForecastMerger.confidence_merge
                  (omap (conquer_one horizon) segments)
                = Ok (forecast, confidence, weights)
                /\ res = merged_result strategy
                           (length (omap (conquer_one horizon) segments))
                           forecast confidence weights)).
Proof.
  unfold predict. intros Hrun.
  apply bind_Ok in Hrun as ([segments frame'] & Hdiv & Hrun).
  exists segments, frame'. split; [exact Hdiv|].
  destruct segments as [|s0 rest].
  - left. split; [reflexivity|].
    apply bind_Ok in Hrun as ([forecast confidence] & Hens & Hrun).
    injection Hrun as <-. eauto.
  - right. split; [discriminate|].
    apply bind_Ok in Hrun as (m & Hmerge & Hrun).
    injection Hrun as <-.
    rewrite merge_confidence_based in Hmerge.
    unfold ForecastMerger._confidence_based in Hmerge.
    apply bind_Ok in Hmerge as ([[forecast confidence] weights] & Hcm & Hm).
    injection Hm as <-. exists forecast, confidence, weights.
    split; [exact Hcm | reflexivity].
Qed.

Lemma conquer_one_length horizon segment sf :
  conquer_one horizon segment = Some sf ->
  Z.of_nat (length (sf_forecast sf)) = horizon.
Proof.
  unfold conquer_one.
  destruct (SegmentForecaster.ensemble_forecast segment horizon)
    as [[forecast confidence]|e] eqn:Hens; [|discriminate].
  intros [= <-]; simpl. eapply ensemble_forecast_length; exact Hens.
Qed.

(** C2.  Whenever [predict] returns, on the merged path as on the
    degenerate one, the forecast in the result has exactly [horizon]
    entries. *)
Theorem predict_forecast_length frame horizon strategy res :
  predict min_segment_size frame horizon strategy = Ok res ->
  exists forecast,
    res !! "forecast" = Some (VArray forecast)
    /\ Z.of_nat (length forecast) = horizon.
Proof.
  intros Hrun.
  apply predict_inv in Hrun as (segments & frame' & _ & [Hglobal|Hmerged]).
  - destruct Hglobal as (_ & forecast & confidence & Hens & ->).
    exists forecast. split; [reflexivity|].
    eapply ensemble_forecast_length; exact Hens.
  - destruct Hmerged as (_ & forecast & confidence & weights & Hcm & ->).
    exists forecast. split; [reflexivity|].
    eapply confidence_merge_length; [exact Hcm|].
    intros sf Hsf. apply list_elem_of_omap in Hsf as (s & _ & Hs).
    eapply conquer_one_length; exact Hs.
Qed.

(** *** The empty dataset *)

Lemma forecast_moving_average_empty segment horizon :
  rows (data segment) = [] ->
  SegmentForecaster.forecast_moving_average segment horizon
    SegmentForecaster.default_window = Raise ValueError.
Proof.
  intros Hrows. unfold SegmentForecaster.forecast_moving_average,
    SegmentForecaster.prices.
  rewrite ones_default_window, Hrows. reflexivity.
Qed.

Lemma ensemble_forecast_empty segment horizon :
  rows (data segment) = [] ->
  SegmentForecaster.ensemble_forecast segment horizon = Raise ValueError.
Proof.
  intros Hrows. unfold SegmentForecaster.ensemble_forecast,
    SegmentForecaster.ensemble_members.
  rewrite (forecast_moving_average_empty _ _ Hrows). reflexivity.
Qed.

Lemma divide_empty frame strategy segments frame' :
  rows frame = [] ->
  divide min_segment_size frame strategy = Ok (segments, frame') ->
  segments = [] /\ rows frame' = [].
Proof.
  intros Hrows. unfold divide.
  destruct (decide (strategy = "route")).
  { intros [= <- <-]. split; [|exact Hrows].
    unfold DataSegmenter.segment_by_route.
    rewrite groupby_empty by exact Hrows. reflexivity. }
  destruct (decide (strategy = "temporal")).
  { intros [= <- <-].
    assert (rows (set_period frame (fun r => to_period "M" (date r))) = [])
      as Hrows' by (simpl; rewrite Hrows; reflexivity).
    split; [|exact Hrows'].
    rewrite groupby_empty by exact Hrows'. reflexivity. }
  destruct (decide (strategy = "hierarchical")).
  { intros [= <- <-]. split; [|exact Hrows].
    unfold DataSegmenter.hierarchical_segmentation,
      DataSegmenter.segment_by_route.
    rewrite groupby_empty by exact Hrows. reflexivity. }
  destruct (decide (strategy = "demand_pattern")); [|discriminate].
  unfold DataSegmenter.segment_by_demand_pattern, len. rewrite Hrows.
  intros Hrun. apply bind_Ok in Hrun as (q & Hq & Hrun).
  unfold DataSegmenter.floordiv in Hq.
  destruct (min_segment_size =? 0); [discriminate|].
  injection Hq as <-. simpl in Hrun. injection Hrun as <- <-.
  split; [reflexivity | exact Hrows].
Qed.

(** C5.  On a dataset without any record [predict] returns no forecast:
    it raises, whatever the strategy and the horizon. *)
Theorem predict_empty_dataset_raises frame horizon strategy :
  rows frame = [] ->
  raises (predict min_segment_size frame horizon strategy).
Proof.
  intros Hrows. unfold predict.
  destruct (divide min_segment_size frame strategy)
    as [[segments frame']|e] eqn:Hdiv; [|exists e; reflexivity].
  destruct (divide_empty _ _ _ _ Hrows Hdiv) as [-> Hrows'].
  exists ValueError. simpl.
  rewrite ensemble_forecast_empty by exact Hrows'. reflexivity.
Qed.

(** *** The requested strategy in the result *)

(** The two return paths of [predict]: after a segmentation that gave at
    least one segment the result carries the requested
    [segmentation_strategy] (line 432); the early return of the degenerate
    path (lines 407-412) sets no such entry: its [strategy] is [global]
    and [num_segments] is 0. *)
Lemma predict_segmentation_strategy_paths frame horizon strategy res :
  predict min_segment_size frame horizon strategy = Ok res ->
  exists segments frame',
    divide min_segment_size frame strategy = Ok (segments, frame')
    /\ (segments <> [] ->
        res !! "segmentation_strategy" = Some (VStr strategy))
    /\ (segments = [] ->
        res !! "segmentation_strategy" = None
        /\ res !! "strategy" = Some (VStr "global")
        /\ res !! "num_segments" = Some (VInt 0)).
Proof.
  intros Hrun.
  apply predict_inv in Hrun as (segments & frame' & Hdiv & Hcase).
  exists segments, frame'. split; [exact Hdiv|].
  destruct Hcase as [(-> & f & c & _ & ->)|(Hne & f & c & w & _ & ->)].
  - split; [intros Habs; contradiction|]. intros _. repeat split.
  - split; [|intros Habs; contradiction]. intros _.
    apply lookup_insert_eq.
Qed.
End OrchestratorFacts.

(** ** Binary64 numbers: order *)

Lemma Qltb_lt x y : Qltb x y = true <-> (x < y)%Q.
Proof.
  unfold Qltb. rewrite Qlt_alt.
  destruct (x ?= y)%Q; split; congruence.
Qed.

Lemma Qltb_ge x y : Qltb x y = false <-> (y <= x)%Q.
Proof.
  destruct (Qltb x y) eqn:E.
  - apply Qltb_lt in E. split; [discriminate|].
    intros Hle. exfalso. exact (Qlt_not_le _ _ E Hle).
  - split; [intros _ | reflexivity].
    apply Qnot_lt_le. intros Hlt. apply Qltb_lt in Hlt. congruence.
Qed.

Lemma Qis0_true x : Qis0 x = true <-> (x == 0)%Q.
Proof. apply Qeq_bool_iff. Qed.

Lemma Qis0_false x : Qis0 x = false <-> ~ (x == 0)%Q.
Proof.
  rewrite <- Qis0_true. destruct (Qis0 x); split; congruence.
Qed.

(** Case analysis on the tests the arithmetic makes. *)
Ltac float_cases :=
  repeat match goal with
  | |- context [Qis0 ?x] =>
      let E := fresh "E" in
      destruct (Qis0 x) eqn:E;
      [apply Qis0_true in E | apply Qis0_false in E]
  | |- context [Qltb ?x ?y] =>
      let E := fresh "E" in
      destruct (Qltb x y) eqn:E;
      [apply Qltb_lt in E | apply Qltb_ge in E]
  end.

Lemma inject_nat_nonneg (n : nat) : (0 <= inject_Z (Z.of_nat n))%Q.
Proof. unfold Qle; simpl. lia. Qed.

(** ** Binary64 numbers: rounding *)

Section Rounding.
Context `{Library}.

(** Rounding does not tell equal rationals apart. *)
Lemma round64_proper p q : (p == q)%Q -> feq (round64 p) (round64 q).
Proof.
  intros Heq.
  pose proof (round64_monotone p q) as Hpq.
  pose proof (round64_monotone q p) as Hqp.
  pose proof (round64_not_nan p) as Hp.
  pose proof (round64_not_nan q) as Hq.
  destruct (round64 p) as [x| | |], (round64 q) as [y| | |];
    simpl in *; try discriminate; try exact I;
    try (specialize (Hpq ltac:(lra)); discriminate);
    try (specialize (Hqp ltac:(lra)); discriminate).
  apply Qltb_ge in Hpq; [|lra]. apply Qltb_ge in Hqp; [|lra].
  apply Qle_antisym; assumption.
Qed.

Lemma round64_int (z : Z) :
  Z.abs z <= 2 ^ 53 -> representable (inject_Z z).
Proof.
  intros Hz. unfold representable.
  pose proof (round64_exact z 0 Hz ltac:(lia)) as Hexact.
  assert (inject_Z z * 2 ^ 0 == inject_Z z)%Q as Heq
    by (change (2 ^ 0)%Q with 1%Q; ring).
  pose proof (round64_proper _ _ Heq) as Hproper.
  destruct (round64 (inject_Z z * 2 ^ 0)) as [x| | |],
    (round64 (inject_Z z)) as [y| | |];
    simpl in *; try contradiction.
  rewrite <- Hproper, Hexact. exact Heq.
Qed.

Lemma representable_0 : representable 0.
Proof. apply (round64_int 0). discriminate. Qed.

Lemma representable_1 : representable 1.
Proof. apply (round64_int 1). discriminate. Qed.


(** What rounding returns is a binary64 number. *)
Lemma round64_representable q r : round64 q = Fin r -> representable r.
Proof. apply round64_idem. Qed.

(** Rounding stays on the side of a binary64 number its argument is
    on. *)
Lemma round64_upper q k :
  (q <= k)%Q -> representable k ->
  match round64 q with
  | Fin r => (r <= k)%Q
  | NInf => True
  | _ => False
  end.
Proof.
  unfold representable. intros Hle Hk.
  pose proof (round64_monotone q k Hle) as Hmono.
  pose proof (round64_not_nan q) as Hq.
  destruct (round64 q) as [x| | |], (round64 k) as [y| | |];
    simpl in *; try contradiction; try discriminate; try exact I.
  apply Qltb_ge in Hmono. rewrite <- Hk. exact Hmono.
Qed.

Lemma round64_lower q k :
  (k <= q)%Q -> representable k ->
  match round64 q with
  | Fin r => (k <= r)%Q
  | PInf => True
  | _ => False
  end.
Proof.
  unfold representable. intros Hle Hk.
  pose proof (round64_monotone k q Hle) as Hmono.
  pose proof (round64_not_nan q) as Hq.
  destruct (round64 q) as [x| | |], (round64 k) as [y| | |];
    simpl in *; try contradiction; try discriminate; try exact I.
  apply Qltb_ge in Hmono. rewrite <- Hk. exact Hmono.
Qed.

Lemma round64_not_negative q : (0 <= q)%Q -> not_negative (round64 q).
Proof.
  intros Hq. pose proof (round64_lower q 0 Hq representable_0) as Hlow.
  destruct (round64 q); simpl; try contradiction; try exact I. exact Hlow.
Qed.
End Rounding.

Section NotNegative.
Context `{Library}.

Lemma sqrt_not_negative a : not_negative (np.sqrt a).
Proof.
  destruct a as [q| | |]; simpl; try exact I.
  destruct (Qltb q 0); simpl; [exact I | apply sqrtQ_nonneg].
Qed.

Lemma fadd_not_negative a b :
  not_negative a -> not_negative b -> not_negative (fadd a b).
Proof.
  destruct a as [x| | |], b as [y| | |]; simpl; try tauto.
  intros Hx Hy. apply round64_not_negative. lra.
Qed.

Lemma np_sum_not_negative xs :
  Forall not_negative xs -> not_negative (np_sum xs).
Proof.
  induction 1 as [|x xs Hx _ IH]; simpl; [lra|].
  apply fadd_not_negative; assumption.
Qed.

Lemma fdiv_count_not_negative a (n : nat) :
  not_negative a -> not_negative (fdiv a (of_int (Z.of_nat n))).
Proof.
  pose proof (inject_nat_nonneg n) as Hn.
  destruct a as [x| | |]; simpl; try tauto; intros Hx; float_cases;
    simpl; try exact I; try lra.
  apply round64_not_negative, Qle_shift_div_l; lra.
Qed.

Lemma mean_not_negative xs :
  Forall not_negative xs -> not_negative (np.mean xs).
Proof.
  intros Hxs. apply fdiv_count_not_negative, np_sum_not_negative, Hxs.
Qed.

Lemma std_axis0_not_negative a : Forall not_negative (np.std_axis0 a).
Proof.
  unfold np.std_axis0. apply Forall_forall. intros s Hs.
  apply list_elem_of_fmap in Hs as (j & -> & _).
  apply sqrt_not_negative.
Qed.

(** [max(0, 1 - s / m)] for a positive [m] and an [s] that is not
    negative. *)
(** [max(0, 1 - r)] for a ratio [r] that is not negative. *)
Lemma clamped_in_range r :
  not_negative r -> in_range 0 1 (py_max0 (fsub (Fin 1) r)).
Proof.
  unfold py_max0, fsub.
  destruct r as [x| | |]; simpl; intros Hx; try contradiction;
    try (split; lra).
  pose proof (round64_upper (1 + - x) 1 ltac:(lra) representable_1) as Hup.
  destruct (round64 (1 + - x)) as [t| | |]; simpl in *;
    try contradiction; try (split; lra).
  destruct (Qltb 0 t) eqn:E; simpl; [|split; lra].
  apply Qltb_lt in E. split; [lra | exact Hup].
Qed.

(** [s / m] for a positive [m] and an [s] that is not negative. *)
Lemma ratio_not_negative s m :
  not_negative s -> fltb (Fin 0) m = true -> not_negative (fdiv s m).
Proof.
  destruct s as [x| | |], m as [y| | |]; simpl; try discriminate;
    intros Hx Hy; try apply Qltb_lt in Hy;
    repeat (float_cases; simpl); try lra; try exact I.
  apply round64_not_negative, Qle_shift_div_l; lra.
Qed.

(** [max(0, 1 - s / m)] for a positive [m] and an [s] that is not
    negative. *)
Lemma clamped_ratio_in_range s m :
  not_negative s -> fltb (Fin 0) m = true ->
  in_range 0 1 (py_max0 (fsub (Fin 1) (fdiv s m))).
Proof.
  intros Hs Hm. apply clamped_in_range, ratio_not_negative; assumption.
Qed.

Lemma agreement_in_range forecasts ensemble :
  (1 < length forecasts)%nat ->
  in_range 0 1 (SegmentForecaster.agreement forecasts ensemble).
Proof.
  intros Hlen. unfold SegmentForecaster.agreement.
  apply Nat.ltb_lt in Hlen. rewrite Hlen.
  destruct (fltb (Fin 0) (np.mean ensemble)) eqn:Hpos.
  - apply clamped_ratio_in_range; [|exact Hpos].
    apply mean_not_negative, std_axis0_not_negative.
  - simpl. split; lra.
Qed.

(** C9.  When at least two members contributed to the ensemble, the
    confidence [ensemble_forecast] returns lies in the closed interval
    from 0 to 1. *)
Theorem ensemble_confidence_in_unit_interval segment horizon
    forecasts weights ensemble confidence :
  SegmentForecaster.ensemble_members segment horizon
    = Ok (forecasts, weights) ->
  (2 <= length forecasts)%nat ->
  SegmentForecaster.ensemble_forecast segment horizon
    = Ok (ensemble, confidence) ->
  in_range 0 1 confidence.
Proof.
  intros Hmem Hlen Hrun.
  apply ensemble_forecast_inv in Hrun as (fs & ws & Hmem' & _ & ->).
  rewrite Hmem in Hmem'. injection Hmem' as <- <-.
  apply agreement_in_range. lia.
Qed.

(** C10.  When more than one member contributes and the mean of the
    combined forecast is not strictly positive, [ensemble_forecast]
    returns the confidence 0.5 and not the agreement formula. *)
Theorem ensemble_confidence_without_positive_mean segment horizon
    forecasts weights ensemble :
  SegmentForecaster.ensemble_members segment horizon
    = Ok (forecasts, weights) ->
  (1 < length forecasts)%nat ->
  np.average_axis0 forecasts
    (map (fun w => fdiv w (py_sum weights)) weights) = Ok ensemble ->
  fltb (Fin 0) (np.mean ensemble) = false ->
  SegmentForecaster.ensemble_forecast segment horizon
    = Ok (ensemble, Fin 0.5).
Proof.
  intros Hmem Hlen Havg Hmean.
  unfold SegmentForecaster.ensemble_forecast. rewrite Hmem; simpl.
  rewrite Havg; simpl. unfold SegmentForecaster.agreement.
  apply Nat.ltb_lt in Hlen. rewrite Hlen, Hmean. reflexivity.
Qed.
End NotNegative.

(** ** Binary64 numbers: sums and normalisation under rounding *)

Lemma finite_list xs : Forall finite xs -> exists qs, xs = map Fin qs.
Proof.
  induction 1 as [|x xs Hx _ (qs & ->)]; [exists []; reflexivity|].
  destruct x as [q| | |]; try contradiction.
  exists (q :: qs). reflexivity.
Qed.

Lemma Qsum_div qs s :
  ~ (s == 0)%Q -> (Qsum (map (fun q => q / s)%Q qs) == Qsum qs / s)%Q.
Proof.
  intros Hs. induction qs as [|q qs IH]; simpl.
  - field. exact Hs.
  - rewrite IH. field. exact Hs.
Qed.

Lemma Qsum_nonneg qs : Forall (fun q => 0 <= q)%Q qs -> (0 <= Qsum qs)%Q.
Proof. induction 1 as [|q qs Hq _ IH]; simpl; lra. Qed.

(** A positive sum of numbers that are not negative has a positive
    term. *)
Lemma Qsum_positive_term qs :
  Forall (fun q => 0 <= q)%Q qs -> (0 < Qsum qs)%Q ->
  exists q, q ∈ qs /\ (0 < q)%Q.
Proof.
  induction 1 as [|q qs Hq Hqs IH]; simpl; intros Hpos; [lra|].
  destruct (Qlt_le_dec 0 q) as [Hlt|Hle].
  - exists q. split; [left | exact Hlt].
  - destruct IH as (q' & Hin & Hq'); [lra|].
    exists q'. split; [right; exact Hin | exact Hq'].
Qed.

Lemma unit_roundoff_positive : (0 < unit_roundoff)%Q.
Proof. reflexivity. Qed.

Lemma unit_roundoff_small : (unit_roundoff <= 1 # 16)%Q.
Proof. discriminate. Qed.

Lemma half_tiny_positive : (0 < half_tiny)%Q.
Proof. reflexivity. Qed.

(** The length of a list as a rational. *)
Lemma inject_length_cons {A} (x : A) (l : list A) :
  (inject_Z (Z.of_nat (length (x :: l)))
   == inject_Z (Z.of_nat (length l)) + 1)%Q.
Proof.
  cbn [length]. rewrite Nat2Z.inj_succ, <- Z.add_1_r, inject_Z_plus.
  reflexivity.
Qed.

(** Up to [2^52] entries: the roundoff of a sum stays below one half, and
    the underflow of its terms below one roundoff. *)
Lemma count_roundoff (n : Z) :
  0 <= n <= 2 ^ 52 ->
  (0 <= inject_Z n)%Q
  /\ (inject_Z n * unit_roundoff <= 1 # 2)%Q
  /\ (inject_Z n * half_tiny <= unit_roundoff)%Q.
Proof.
  intros [Hlo Hhi].
  assert (0 <= inject_Z n)%Q as Hn by (unfold Qle; simpl; lia).
  assert (inject_Z n <= inject_Z (2 ^ 52))%Q as Hle
    by (rewrite <- Zle_Qle; exact Hhi).
  assert (inject_Z (2 ^ 52) * unit_roundoff == 1 # 2)%Q as Hu
    by (vm_compute; reflexivity).
  assert (inject_Z (2 ^ 52) * half_tiny <= unit_roundoff)%Q as Ht
    by (vm_compute; discriminate).
  split; [exact Hn|]. split.
  - rewrite <- Hu. apply Qmult_le_compat_r; [exact Hle | discriminate].
  - eapply Qle_trans; [|exact Ht].
    apply Qmult_le_compat_r; [exact Hle | discriminate].
Qed.

Section RoundedSums.
Context `{Library}.

(** [numpy.sum] of binary64 numbers between 0 and 1: the rounded sum [s]
    is a binary64 number that bounds every term, and it is the exact
    sum [C] up to the roundoff of the additions. *)
Lemma np_sum_bounds (cs : list Q) :
  Z.of_nat (length cs) <= 2 ^ 52 ->
  Forall (fun c => (0 <= c <= 1)%Q /\ representable c) cs ->
  exists s,
    np_sum (map Fin cs) = Fin s
    /\ representable s
    /\ Forall (fun c => c <= s)%Q cs
    /\ (0 <= s <= inject_Z (Z.of_nat (length cs)))%Q
    /\ ((1 - inject_Z (Z.of_nat (length cs)) * unit_roundoff) * Qsum cs
        <= s)%Q
    /\ ((1 - inject_Z (Z.of_nat (length cs)) * unit_roundoff) * s
        <= Qsum cs)%Q.
Proof.
  intros Hlen Hall. induction Hall as [|c cs [Hc Hrep] Hall IH].
  - exists 0%Q. split; [reflexivity|]. split; [exact representable_0|].
    split; [constructor|]. simpl. split; [split; discriminate|].
    split; lra.
  - destruct IH as (s' & Hs' & Hrep' & Hle' & Hrange' & Hlow' & Hup').
    { cbn [length] in Hlen. lia. }
    pose proof (inject_length_cons c cs) as Hk.
    destruct (count_roundoff (Z.of_nat (length (c :: cs)))) as (Hk0 & Hku & _);
      [lia|].
    set (k := inject_Z (Z.of_nat (length (c :: cs)))) in *.
    set (k' := inject_Z (Z.of_nat (length cs))) in *.
    assert (0 <= k')%Q as Hk'0 by (unfold k', Qle; simpl; lia).
    pose proof (Qsum_nonneg cs) as HC.
    specialize (HC ltac:(eapply Forall_impl; [exact Hall|]; intros ? [[? ?] ?]; assumption)).
    cbn [map]. change (np_sum (Fin c :: map Fin cs))
      with (fadd (Fin c) (np_sum (map Fin cs))).
    rewrite Hs'. cbn [fadd].
    assert (representable k) as Hrepk.
    { apply round64_int. cbn [length] in Hlen |- *. lia. }
    pose proof (round64_upper (c + s') k ltac:(lra) Hrepk) as Hupper.
    pose proof (round64_lower (c + s') c ltac:(lra) Hrep) as Hlower.
    pose proof (round64_lower (c + s') s' ltac:(lra) Hrep') as Hlower'.
    destruct (round64 (c + s')) as [r| | |] eqn:Hr; try contradiction.
    pose proof (round64_sum c s' r Hrep Hrep' Hr) as Herr.
    apply Qabs_Qle_condition in Herr as [Herr1 Herr2].
    rewrite Qabs_pos in Herr1, Herr2 by lra.
    pose proof unit_roundoff_positive as Hu.
    pose proof unit_roundoff_small as Hu4.
    set (u := unit_roundoff) in *.
    exists r. split; [reflexivity|].
    split; [exact (round64_representable _ _ Hr)|].
    split.
    { constructor; [exact Hlower|].
      eapply Forall_impl; [exact Hle'|]. intros x Hx. simpl in Hx. lra. }
    split; [split; lra|].
    cbn [Qsum foldr]. fold (Qsum cs).
    assert (k * u == k' * u + u)%Q as Hku' by (rewrite Hk; ring).
    assert (0 <= 1 - k' * u <= 1)%Q as HA.
    { assert (0 <= k' * u)%Q by (apply Qmult_le_0_compat; lra). lra. }
    set (A := (1 - k' * u)%Q) in *.
    assert (1 - k * u == A - u)%Q as -> by (unfold A; lra).
    split.
    + (* (A - u) (c + C) <= r *)
      assert (0 <= (1 - A) * c)%Q by (apply Qmult_le_0_compat; lra).
      assert (0 <= u * ((1 - A) * Qsum cs))%Q
        by (apply Qmult_le_0_compat; [lra|];
            apply Qmult_le_0_compat; lra).
      assert (0 <= (1 - u) * (s' - A * Qsum cs))%Q
        by (apply Qmult_le_0_compat; lra).
      lra.
    + (* (A - u) r <= c + C *)
      assert (0 <= (A - (A - u) * (1 + u)) * (c + s'))%Q.
      { apply Qmult_le_0_compat; [|lra].
        assert (0 <= u * u)%Q by (apply Qmult_le_0_compat; lra).
        assert (0 <= u * (1 - A))%Q by (apply Qmult_le_0_compat; lra).
        lra. }
      assert (0 <= (1 - A) * c)%Q by (apply Qmult_le_0_compat; lra).
      destruct (Qlt_le_dec (A - u) 0) as [Hneg|Hpos].
      * assert (0 <= (u - A) * r)%Q by (apply Qmult_le_0_compat; lra).
        lra.
      * assert (0 <= (A - u) * ((1 + u) * (c + s') - r))%Q
          by (apply Qmult_le_0_compat; lra).
        lra.
Qed.
End RoundedSums.

(** The sum [W] of rounded quotients against 1, from the bounds of the
    rounded divisor [S] against the exact sum [C]. *)
Lemma normalised_sum_tolerance (n u eta C S W rho : Q) :
  (0 < u <= 1 # 16 -> 0 <= n -> n * u <= 1 # 2 -> n * eta <= u -> 0 <= eta ->
   0 < C -> 0 < S ->
   (1 - n * u) * C <= S -> (1 - n * u) * S <= C ->
   rho == C / S ->
   - (u * rho + n * eta) <= W - rho <= u * rho + n * eta ->
   (- ((2 * n + 3) * u) <= W - 1 <= (2 * n + 3) * u) /\ 0 < W)%Q.
Proof.
  intros [Hu Hu4] Hn Hnu Hneta Heta HC HS Hlow Hup Hrho [HW1 HW2].
  set (m := (n * u)%Q) in *.
  assert (0 <= m)%Q as Hm by (apply Qmult_le_0_compat; lra).
  assert (rho * S == C)%Q as HrhoS by (rewrite Hrho; field; lra).
  assert (0 < rho)%Q as Hrho0.
  { rewrite Hrho. apply Qlt_shift_div_l; lra. }
  assert (1 - m <= rho)%Q as Ha1.
  { apply Qmult_le_r with (z := S); [exact HS|]. lra. }
  assert ((1 - m) * rho <= 1)%Q as Ha2.
  { apply Qmult_le_r with (z := S); [exact HS|].
    assert ((1 - m) * rho * S == (1 - m) * C)%Q as ->
      by (rewrite <- HrhoS; ring).
    lra. }
  assert (rho <= 1 + 2 * m)%Q as Hrho1.
  { apply Qmult_le_l with (z := (1 - m)%Q); [lra|].
    assert (0 <= m * (1 - 2 * m))%Q by (apply Qmult_le_0_compat; lra).
    lra. }
  assert (0 <= u * (1 + 2 * m - rho))%Q by (apply Qmult_le_0_compat; lra).
  assert (0 <= u * (rho - (1 - m)))%Q by (apply Qmult_le_0_compat; lra).
  assert (0 <= u * (1 - 2 * m))%Q by (apply Qmult_le_0_compat; lra).
  assert (0 <= u * m)%Q by (apply Qmult_le_0_compat; lra).
  assert ((2 * n + 3) * u == 2 * m + 3 * u)%Q as -> by (unfold m; ring).
  split; [split; lra | lra].
Qed.

Lemma elem_le_Zsum (zs : list Z) (z : Z) :
  Forall (fun z => 0 <= z) zs -> z ∈ zs -> z <= foldr Z.add 0%Z zs.
Proof.
  induction 1 as [|x zs Hx Hall IH]; intros Hin; [inversion Hin|].
  assert (0 <= foldr Z.add 0%Z zs) as Hrest
    by (clear -Hall; induction Hall; simpl; lia).
  cbn [foldr]. apply elem_of_cons in Hin as [->|Hin]; [lia|].
  specialize (IH Hin). lia.
Qed.

Lemma length_le_Zsum (zs : list Z) :
  Forall (fun z => 1 <= z) zs -> Z.of_nat (length zs) <= foldr Z.add 0%Z zs.
Proof. induction 1 as [|x zs Hx Hall IH]; cbn [length foldr]; lia. Qed.

Section RoundedRatios.
Context `{Library}.

Lemma round64_value q k :
  (q == k)%Q -> representable k ->
  exists r, round64 q = Fin r /\ (r == k)%Q.
Proof.
  intros Heq Hk.
  pose proof (round64_upper q k ltac:(lra) Hk) as Hup.
  pose proof (round64_lower q k ltac:(lra) Hk) as Hlow.
  destruct (round64 q) as [r| | |]; try contradiction.
  exists r. split; [reflexivity | apply Qle_antisym; assumption].
Qed.

(** Numbers between 0 and a positive [s], each divided by [s]: the
    rounded quotients are binary64 numbers between 0 and 1, and their
    exact sum is the exact sum [T] of the quotients up to one roundoff of
    [T] and one underflow for each. *)
Lemma rounded_ratios (xs : list Q) (s : Q) :
  (0 < s)%Q -> Forall (fun x => 0 <= x <= s)%Q xs ->
  exists ws,
    map (fun x => fdiv (Fin x) (Fin s)) xs = map Fin ws
    /\ Forall (fun w => (0 <= w <= 1)%Q /\ representable w) ws
    /\ length ws = length xs
    /\ let T := Qsum (map (fun x => x / s)%Q xs) in
       let slack :=
         (unit_roundoff * T
          + inject_Z (Z.of_nat (length xs)) * half_tiny)%Q in
       (- slack <= Qsum ws - T <= slack)%Q.
Proof.
  intros Hs Hall. induction Hall as [|x xs [Hx0 Hxs] Hall IH].
  - exists []. split; [reflexivity|]. split; [constructor|].
    split; [reflexivity|]. simpl. split; vm_compute; discriminate.
  - destruct IH as (ws & Hws & Hrange & Hlen & Hsum).
    assert (0 <= x / s)%Q as Hq0 by (apply Qle_shift_div_l; lra).
    assert (x / s <= 1)%Q as Hq1 by (apply Qle_shift_div_r; lra).
    pose proof (round64_upper (x / s) 1 Hq1 representable_1) as Hup.
    pose proof (round64_lower (x / s) 0 Hq0 representable_0) as Hlow.
    destruct (round64 (x / s)) as [w| | |] eqn:Hw; try contradiction.
    pose proof (round64_error _ _ Hw) as Herr.
    apply Qabs_Qle_condition in Herr as [Herr1 Herr2].
    rewrite Qabs_pos in Herr1, Herr2 by exact Hq0.
    exists (w :: ws). split; [|split; [|split]].
    + cbn [map]. rewrite Hws. f_equal. cbn [fdiv].
      assert (Qis0 s = false) as -> by (apply Qis0_false; lra).
      exact Hw.
    + constructor; [|exact Hrange].
      split; [split; assumption | exact (round64_representable _ _ Hw)].
    + cbn [length]. rewrite Hlen. reflexivity.
    + pose proof (inject_length_cons x xs) as Hk.
      cbv zeta in Hsum |- *. cbn [map Qsum foldr].
      fold (Qsum ws). fold (Qsum (map (fun x => x / s)%Q xs)).
      set (T := Qsum (map (fun x => x / s)%Q xs)) in *.
      rewrite Hk.
      set (n := inject_Z (Z.of_nat (length xs))) in *.
      set (q := (x / s)%Q) in *.
      split; lra.
Qed.

Lemma mapM_truediv (xs : list float) (t : Q) :
  ~ (t == 0)%Q ->
  mapM (fun size => py_truediv size (Fin t)) xs
  = Ok (map (fun c => fdiv c (Fin t)) xs).
Proof.
  intros Ht. apply Qis0_false in Ht. unfold Qis0 in Ht.
  induction xs as [|x xs IH]; [reflexivity|].
  simpl. rewrite IH. unfold py_truediv. simpl. rewrite Ht. reflexivity.
Qed.

(** Python's [sum] of integers that stay below [2^53] is exact. *)
Lemma py_sum_ints (zs : list Z) (acc : Z) (a : Q) :
  (a == inject_Z acc)%Q -> 0 <= acc ->
  Forall (fun z => 0 <= z) zs -> acc + foldr Z.add 0%Z zs <= 2 ^ 53 ->
  exists t,
    fold_left fadd (map Fin (map inject_Z zs)) (Fin a) = Fin t
    /\ (t == inject_Z (acc + foldr Z.add 0%Z zs))%Q.
Proof.
  intros Ha Hacc Hall. revert acc a Ha Hacc.
  induction Hall as [|z zs Hz Hall IH]; intros acc a Ha Hacc Hle.
  - exists a. split; [reflexivity|]. simpl. rewrite Z.add_0_r. exact Ha.
  - cbn [foldr] in Hle.
    assert (0 <= foldr Z.add 0%Z zs) as Hrest.
    { clear -Hall. induction Hall; simpl; lia. }
    destruct (round64_value (a + inject_Z z) (inject_Z (acc + z)))
      as (r & Hr & Hreq).
    { rewrite Ha, inject_Z_plus. reflexivity. }
    { apply round64_int. lia. }
    destruct (IH (acc + z) r Hreq ltac:(lia) ltac:(lia)) as (t & Ht & Hteq).
    exists t. split.
    + cbn [map fold_left fadd]. rewrite Hr. exact Ht.
    + rewrite Hteq. cbn [foldr]. rewrite Z.add_assoc. reflexivity.
Qed.

Lemma Qsum_inject (zs : list Z) :
  (Qsum (map inject_Z zs) == inject_Z (foldr Z.add 0%Z zs))%Q.
Proof.
  induction zs as [|z zs IH]; [reflexivity|].
  cbn [map Qsum foldr]. fold (Qsum (map inject_Z zs)).
  rewrite IH, inject_Z_plus. reflexivity.
Qed.

Lemma segment_sizes_ints segment_forecasts (zs : list Z) :
  map ForecastMerger.size_of segment_forecasts = map VInt zs ->
  ForecastMerger.segment_sizes segment_forecasts
  = Ok (map Fin (map inject_Z zs)).
Proof.
  unfold ForecastMerger.segment_sizes. revert zs.
  induction segment_forecasts as [|sf sfs IH]; intros [|z zs] Hmap;
    try discriminate; [reflexivity|].
  cbn [map] in Hmap. injection Hmap as Hsf Hmap.
  cbn [mapM]. rewrite Hsf. cbn [ForecastMerger.as_number mbind result_bind].
  rewrite (IH zs Hmap). reflexivity.
Qed.

(** The weights of [_confidence_based] for binary64 confidences between
    0 and 1 that are not all zero. *)
Lemma confidence_weights_rounded segment_forecasts (cs : list Q) :
  Z.of_nat (length segment_forecasts) <= 2 ^ 52 ->
  map sf_confidence segment_forecasts = map Fin cs ->
  Forall (fun c => (0 <= c <= 1)%Q /\ representable c) cs ->
  (0 < Qsum cs)%Q ->
  exists ws,
    ForecastMerger.confidence_weights segment_forecasts = map Fin ws
    /\ Forall (fun w => (0 <= w <= 1)%Q /\ representable w) ws
    /\ (Qabs (Qsum ws - 1)
        <= (2 * inject_Z (Z.of_nat (length segment_forecasts)) + 3)
           * unit_roundoff)%Q
    /\ (0 < Qsum ws)%Q.
Proof.
  intros Hcount Hconf Hcs Hpos.
  destruct (count_roundoff (Z.of_nat (length segment_forecasts)))
    as (Hn0 & Hnu & Hneta); [lia|].
  pose proof unit_roundoff_positive as Hu.
  pose proof unit_roundoff_small as Hu4.
  pose proof half_tiny_positive as Heta.
  assert (length cs = length segment_forecasts) as Hlen.
  { rewrite <- (length_map Fin cs), <- Hconf. apply length_map. }
  destruct (np_sum_bounds cs) as (S & HS & _ & Hle & _ & Hlow & Hup);
    [rewrite Hlen; exact Hcount | exact Hcs |].
  rewrite Hlen in Hlow, Hup.
  set (n := inject_Z (Z.of_nat (length segment_forecasts))) in *.
  assert (0 < S)%Q as HS0.
  { assert (0 <= n * unit_roundoff)%Q by (apply Qmult_le_0_compat; lra).
    assert (0 <= ((1 # 2) - n * unit_roundoff) * Qsum cs)%Q
      by (apply Qmult_le_0_compat; lra).
    lra. }
  destruct (rounded_ratios cs S HS0) as (ws & Hws & Hrange & _ & Hsum).
  { rewrite Forall_forall in Hcs, Hle. apply Forall_forall. intros c Hc.
    destruct (Hcs c Hc) as [[Hc0 _] _]. specialize (Hle c Hc).
    simpl in Hle. split; assumption. }
  exists ws. split; [|split; [exact Hrange|]].
  - unfold ForecastMerger.confidence_weights. cbv zeta.
    rewrite Hconf, HS, map_map. exact Hws.
  - cbv zeta in Hsum. rewrite Hlen in Hsum. fold n in Hsum.
    destruct (normalised_sum_tolerance n unit_roundoff half_tiny
                (Qsum cs) S (Qsum ws)
                (Qsum (map (fun x => x / S)%Q cs))) as [Htol Hwpos];
      try assumption; try lra.
    { apply Qsum_div. lra. }
    split; [apply Qabs_Qle_condition; exact Htol | exact Hwpos].
Qed.

(** C6, amended.  For a non-empty list of at most [2^52] segment
    forecasts: when the sizes are positive integers with a total of at
    most [2^53], the weights of [_weighted_average] are computed, lie
    between 0 and 1, and their sum differs from 1 by at most two
    roundoffs; when the confidences are binary64 numbers between 0 and 1
    that are not all zero, the weights of [_confidence_based] lie between
    0 and 1, and their sum differs from 1 by at most [2 n + 3] roundoffs,
    [n] being the number of segment forecasts. *)
Theorem merge_weights_sum_to_one segment_forecasts :
  segment_forecasts <> [] ->
  Z.of_nat (length segment_forecasts) <= 2 ^ 52 ->
  (forall zs,
      map ForecastMerger.size_of segment_forecasts = map VInt zs ->
      Forall (fun z => 1 <= z) zs ->
      foldr Z.add 0%Z zs <= 2 ^ 53 ->
      exists ws,
        ForecastMerger.size_weights segment_forecasts = Ok (map Fin ws)
        /\ Forall (fun w => 0 <= w <= 1)%Q ws
        /\ (Qabs (Qsum ws - 1) <= 2 * unit_roundoff)%Q)
  /\ (forall cs,
        map sf_confidence segment_forecasts = map Fin cs ->
        Forall (fun c => (0 <= c <= 1)%Q /\ representable c) cs ->
        (0 < Qsum cs)%Q ->
        exists ws,
          ForecastMerger.confidence_weights segment_forecasts = map Fin ws
          /\ Forall (fun w => 0 <= w <= 1)%Q ws
          /\ (Qabs (Qsum ws - 1)
              <= (2 * inject_Z (Z.of_nat (length segment_forecasts)) + 3)
                 * unit_roundoff)%Q).
Proof.
  intros Hne Hcount.
  destruct (count_roundoff (Z.of_nat (length segment_forecasts)))
    as (Hn0 & Hnu & Hneta); [lia|].
  pose proof unit_roundoff_positive as Hu.
  pose proof half_tiny_positive as Heta.
  split.
  - intros zs Hsizes Hzs Htotal.
    assert (length zs = length segment_forecasts) as Hlen.
    { rewrite <- (length_map VInt zs), <- Hsizes. apply length_map. }
    assert (Forall (fun z => 0 <= z) zs) as Hzs0
      by (eapply Forall_impl; [exact Hzs|]; intros z Hz; simpl in Hz; lia).
    pose proof (length_le_Zsum zs Hzs) as Htotal1.
    assert (1 <= foldr Z.add 0%Z zs) as Hpos.
    { destruct zs, segment_forecasts; try discriminate; try contradiction.
      cbn [length] in Htotal1. lia. }
    destruct (py_sum_ints zs 0 0) as (t & Ht & Hteq);
      [reflexivity | lia | exact Hzs0 | lia |].
    rewrite Z.add_0_l in Hteq.
    assert (1 <= t)%Q as Ht1.
    { rewrite Hteq. change 1%Q with (inject_Z 1). rewrite <- Zle_Qle.
      exact Hpos. }
    destruct (rounded_ratios (map inject_Z zs) t) as (ws & Hws & Hrange & _ & Hsum);
      [lra| |].
    { apply Forall_forall. intros x Hx.
      apply list_elem_of_fmap in Hx as (z & -> & Hz).
      rewrite Forall_forall in Hzs0. specialize (Hzs0 z Hz) as Hz0.
      pose proof (elem_le_Zsum zs z ltac:(apply Forall_forall; exact Hzs0) Hz).
      rewrite Hteq, <- !Zle_Qle. change 0%Q with (inject_Z 0).
      rewrite <- Zle_Qle. lia. }
    exists ws. split; [|split].
    + unfold ForecastMerger.size_weights.
      rewrite (segment_sizes_ints _ _ Hsizes). cbn [mbind result_bind].
      cbv zeta. unfold py_sum. rewrite Ht.
      rewrite mapM_truediv by lra. rewrite map_map, Hws. reflexivity.
    + eapply Forall_impl; [exact Hrange|]. intros w [Hw _]. exact Hw.
    + cbv zeta in Hsum. rewrite length_map, Hlen in Hsum.
      rewrite Qsum_div in Hsum by lra.
      assert (Qsum (map inject_Z zs) / t == 1)%Q as HT.
      { rewrite Qsum_inject, <- Hteq. field. lra. }
      rewrite HT in Hsum. apply Qabs_Qle_condition.
      destruct Hsum as [Hs1 Hs2]. split; lra.
  - intros cs Hconf Hcs Hpos.
    destruct (confidence_weights_rounded segment_forecasts cs
                Hcount Hconf Hcs Hpos) as (ws & Hws & Hrange & Htol & _).
    exists ws. split; [exact Hws|]. split; [|exact Htol].
    eapply Forall_impl; [exact Hrange|]. intros w [Hw _]. exact Hw.
Qed.
End RoundedRatios.

(** ** Combine: the confidence-based merge *)

Lemma same_lengths_common (a : list (list float)) h :
  (forall f, f ∈ a -> length f = h) -> np.same_lengths a = true.
Proof.
  intros Hall. unfold np.same_lengths. apply forallb_forall.
  intros f Hf. apply list_elem_of_In in Hf. apply Nat.eqb_eq.
  rewrite (Hall f Hf). destruct a as [|f0 a']; [inversion Hf|].
  simpl. symmetry. apply Hall. left.
Qed.

Lemma fold_maximum_Fin qs a :
  exists m, fold_left np.maximum (map Fin qs) (Fin a) = Fin m
            /\ m ∈ a :: qs
            /\ forall c, c ∈ a :: qs -> (c <= m)%Q.
Proof.
  revert a. induction qs as [|q qs IH]; intros a.
  - exists a. split; [reflexivity|]. split; [left|].
    intros c Hc. apply list_elem_of_singleton in Hc as ->. lra.
  - cbn [map fold_left].
    change (np.maximum (Fin a) (Fin q))
      with (if Qltb a q then Fin q else Fin a).
    destruct (Qltb a q) eqn:E;
      [apply Qltb_lt in E; destruct (IH q) as (m & -> & Hin & Hmax)
      |apply Qltb_ge in E; destruct (IH a) as (m & -> & Hin & Hmax)];
      exists m; (split; [reflexivity|]).
    + split; [right; exact Hin|]. intros c Hc.
      apply elem_of_cons in Hc as [->|Hc]; [|apply Hmax, Hc].
      assert (q <= m)%Q by (apply Hmax; left). lra.
    + split.
      { apply elem_of_cons in Hin as [->|Hin]; [left|].
        right; right; exact Hin. }
      intros c Hc. apply elem_of_cons in Hc as [->|Hc]; [apply Hmax; left|].
      apply elem_of_cons in Hc as [->|Hc]; [|apply Hmax; right; exact Hc].
      assert (a <= m)%Q by (apply Hmax; left). lra.
Qed.

Lemma fle_Fin a b : (a <= b)%Q -> fle (Fin a) (Fin b).
Proof. intros Hle. repeat split. simpl. apply Qltb_ge, Hle. Qed.

(** [np.max] of finite numbers is one of them and bounds them all. *)
Lemma max_finite xs :
  Forall finite xs -> xs <> [] ->
  exists m, np.max xs = Ok m /\ m ∈ xs /\ forall c, c ∈ xs -> fle c m.
Proof.
  intros Hfin Hne. destruct (finite_list _ Hfin) as (qs & ->).
  destruct qs as [|a qs]; [contradiction|]. simpl.
  destruct (fold_maximum_Fin qs a) as (m & -> & Hin & Hmax).
  exists (Fin m). split; [reflexivity|]. split.
  - change (Fin a :: map Fin qs) with (Fin <$> (a :: qs)).
    apply list_elem_of_fmap_2, Hin.
  - intros c Hc. change (Fin a :: map Fin qs) with (Fin <$> (a :: qs)) in Hc.
    apply list_elem_of_fmap in Hc as (q & -> & Hq). apply fle_Fin, Hmax, Hq.
Qed.

Section ConfidenceMerge.
Context `{Library}.

(** The sum of binary64 numbers between 0 and 1, one of them positive,
    is not zero. *)
Lemma np_sum_positive (ws : list Q) :
  Z.of_nat (length ws) <= 2 ^ 52 ->
  Forall (fun w => (0 <= w <= 1)%Q /\ representable w) ws ->
  (0 < Qsum ws)%Q ->
  feqb (np_sum (map Fin ws)) (Fin 0) = false.
Proof.
  intros Hlen Hws Hpos.
  destruct (np_sum_bounds ws Hlen Hws) as (s & -> & _ & Hle & _).
  destruct (Qsum_positive_term ws) as (w & Hin & Hw); [|exact Hpos|].
  { eapply Forall_impl; [exact Hws|]. intros x [[Hx _] _]. exact Hx. }
  rewrite Forall_forall in Hle. specialize (Hle w Hin). simpl in Hle.
  cbn [feqb]. apply Qis0_false. lra.
Qed.

(** What [_confidence_based] computes for binary64 confidences between
    0 and 1 that are not all zero. *)
Lemma confidence_merge_rounded segment_forecasts (h : nat) (cs : list Q) :
  Z.of_nat (length segment_forecasts) <= 2 ^ 52 ->
  map sf_confidence segment_forecasts = map Fin cs ->
  Forall (fun c => (0 <= c <= 1)%Q /\ representable c) cs ->
  (0 < Qsum cs)%Q ->
  (forall sf, sf ∈ segment_forecasts -> length (sf_forecast sf) = h) ->
  let weights := ForecastMerger.confidence_weights segment_forecasts in
  exists confidence ws,
    ForecastMerger.confidence_merge segment_forecasts
    = Ok (spec_weighted_average (map sf_forecast segment_forecasts) weights,
          confidence, weights)
    /\ weights = map Fin ws
    /\ Forall (fun w => (0 <= w <= 1)%Q /\ representable w) ws
    /\ (Qabs (Qsum ws - 1)
        <= (2 * inject_Z (Z.of_nat (length segment_forecasts)) + 3)
           * unit_roundoff)%Q
    /\ confidence ∈ map sf_confidence segment_forecasts
    /\ forall c, c ∈ map sf_confidence segment_forecasts -> fle c confidence.
Proof.
  intros Hcount Hconf Hcs Hpos Hlen weights.
  destruct (confidence_weights_rounded segment_forecasts cs
              Hcount Hconf Hcs Hpos) as (ws & Hws & Hrange & Htol & Hwpos).
  fold weights in Hws.
  assert (length ws = length segment_forecasts) as Hwlen.
  { rewrite <- (length_map Fin ws), <- Hws. unfold weights,
      ForecastMerger.confidence_weights. rewrite !length_map. reflexivity. }
  assert (map sf_confidence segment_forecasts <> []) as Hnil.
  { rewrite Hconf. intros Heq. destruct cs; [|discriminate].
    simpl in Hpos. lra. }
  destruct (max_finite (map sf_confidence segment_forecasts))
    as (m & Hm & Hin & Hmax); [|exact Hnil|].
  { rewrite Hconf. apply Forall_forall. intros x Hx.
    apply list_elem_of_fmap in Hx as (q & -> & _). exact I. }
  exists m, ws.
  split; [|split; [exact Hws|]; split; [exact Hrange|];
           split; [exact Htol|]; split; [exact Hin | exact Hmax]].
  unfold ForecastMerger.confidence_merge. fold weights.
  unfold np.average_axis0.
  rewrite (same_lengths_common (map sf_forecast segment_forecasts) h).
  2:{ intros f Hf. apply list_elem_of_fmap in Hf as (sf & -> & Hsf).
      apply Hlen, Hsf. }
  cbn [negb]. rewrite Hws at 1. rewrite !length_map, Hwlen, Nat.eqb_refl.
  cbn [negb]. cbv zeta.
  assert (feqb (np_sum weights) (Fin 0) = false) as ->.
  { rewrite Hws. apply np_sum_positive; [lia | exact Hrange | exact Hwpos]. }
  cbn [mbind result_bind]. rewrite Hm. reflexivity.
Qed.

(** C7, amended.  For at most [2^52] segment forecasts whose confidences
    are binary64 numbers between 0 and 1, not all zero, and whose forecast
    vectors share one length, [_confidence_based] returns; each weight is
    the confidence divided by the sum of the confidences, the weights lie
    between 0 and 1 and their sum differs from 1 by at most [2 n + 3]
    roundoffs; the merged forecast is the weighted elementwise average
    of the member vectors, of their length; and the merged confidence is
    the greatest member confidence. *)
Theorem confidence_based_merge segment_forecasts (h : nat) (cs : list Q) :
  Z.of_nat (length segment_forecasts) <= 2 ^ 52 ->
  map sf_confidence segment_forecasts = map Fin cs ->
  Forall (fun c => (0 <= c <= 1)%Q /\ representable c) cs ->
  (0 < Qsum cs)%Q ->
  (forall sf, sf ∈ segment_forecasts -> length (sf_forecast sf) = h) ->
  let weights := ForecastMerger.confidence_weights segment_forecasts in
  exists merged confidence ws,
    ForecastMerger._confidence_based segment_forecasts
    = Ok {[ "forecast" := VArray merged;
            "confidence" := VFloat confidence;
            "num_segments" := VInt (Z.of_nat (length segment_forecasts));
            "strategy" := VStr "confidence_based";
            "segment_contributions" := VArray weights ]}
    /\ weights
       = map (fun c => fdiv c (np_sum (map sf_confidence segment_forecasts)))
             (map sf_confidence segment_forecasts)
    /\ weights = map Fin ws
    /\ Forall (fun w => 0 <= w <= 1)%Q ws
    /\ (Qabs (Qsum ws - 1)
        <= (2 * inject_Z (Z.of_nat (length segment_forecasts)) + 3)
           * unit_roundoff)%Q
    /\ merged
       = spec_weighted_average (map sf_forecast segment_forecasts) weights
    /\ length merged = h
    /\ confidence ∈ map sf_confidence segment_forecasts
    /\ forall c, c ∈ map sf_confidence segment_forecasts -> fle c confidence.
Proof.
  intros Hcount Hconf Hcs Hpos Hlen weights.
  destruct (confidence_merge_rounded segment_forecasts h cs
              Hcount Hconf Hcs Hpos Hlen)
    as (confidence & ws & Hmerge & Hws & Hrange & Htol & Hin & Hmax).
  fold weights in Hmerge, Hws.
  exists (spec_weighted_average (map sf_forecast segment_forecasts) weights),
    confidence, ws.
  split.
  { unfold ForecastMerger._confidence_based. rewrite Hmerge. reflexivity. }
  split; [reflexivity|]. split; [exact Hws|].
  split.
  { eapply Forall_impl; [exact Hrange|]. intros w [Hw _]. exact Hw. }
  split; [exact Htol|]. split; [reflexivity|].
  split; [|split; assumption].
  unfold spec_weighted_average. rewrite length_map, length_seq.
  destruct segment_forecasts as [|sf rest].
  - simpl in Hconf. destruct cs; [simpl in Hpos; lra | discriminate].
  - apply Hlen. left.
Qed.
End ConfidenceMerge.

(** ** The single-model branch of the ensemble *)

Section SingleModel.
Context `{Library}.
Import SegmentForecaster.

(** Whenever the ensemble is formed it has three members: a model that
    fails has already been replaced by the moving average inside
    [forecast_arima] and [forecast_exponential_smoothing]. *)
Lemma ensemble_members_three segment horizon forecasts weights :
  ensemble_members segment horizon = Ok (forecasts, weights) ->
  length forecasts = 3%nat /\ weights = [Fin 0.4; Fin 0.3; Fin 0.3].
Proof.
  unfold ensemble_members, forecast_arima, forecast_exponential_smoothing.
  destruct (forecast_moving_average segment horizon default_window)
    as [ma|e] eqn:Hma; [|discriminate].
  destruct (ARIMA_fit_forecast (prices segment) horizon),
    (ExponentialSmoothing_fit_forecast (prices segment) horizon);
    simpl; intros [= <- <-]; split; reflexivity.
Qed.

(** When both models fail the three members are the moving average. *)
Lemma ensemble_members_fallback segment horizon ma :
  ARIMA_fit_forecast (prices segment) horizon = None ->
  ExponentialSmoothing_fit_forecast (prices segment) horizon = None ->
  forecast_moving_average segment horizon default_window = Ok ma ->
  ensemble_members segment horizon
  = Ok ([ma; ma; ma], [Fin 0.4; Fin 0.3; Fin 0.3]).
Proof.
  intros Harima Hes Hma.
  unfold ensemble_members, forecast_arima, forecast_exponential_smoothing.
  rewrite Harima, Hes, Hma. reflexivity.
Qed.

(** The confidence 0.6 of the single-model branch is never computed. *)
Lemma ensemble_forecast_never_single segment horizon ensemble confidence :
  ensemble_forecast segment horizon = Ok (ensemble, confidence) ->
  confidence
  = if fltb (Fin 0) (np.mean ensemble)
    then py_max0 (fsub (Fin 1)
           (fdiv (np.mean (np.std_axis0
                    (Demo.ok_or ([], []) (ensemble_members segment horizon)).1))
                 (np.mean ensemble)))
    else Fin 0.5.
Proof.
  intros Hrun.
  apply ensemble_forecast_inv in Hrun as (fs & ws & Hmem & _ & ->).
  rewrite Hmem; simpl.
  apply ensemble_members_three in Hmem as [Hlen _].
  unfold agreement. rewrite Hlen. reflexivity.
Qed.
End SingleModel.

(** C3.  On a segment where the autoregressive model and exponential
    smoothing both fail, [ensemble_forecast] returns the moving-average
    forecast, but with confidence 1 and not 0.6: the failed models have
    been replaced by the moving average and count as members that agree. *)
Theorem moving_average_only_confidence :
  let segment := Demo.whole Demo.df in
  @ARIMA_fit_forecast Demo.failing_library
     (SegmentForecaster.prices segment) 3 = None
  /\ @ExponentialSmoothing_fit_forecast Demo.failing_library
       (SegmentForecaster.prices segment) 3 = None
  /\ exists ensemble confidence,
      @SegmentForecaster.ensemble_forecast Demo.failing_library segment 3
      = Ok (ensemble, confidence)
      /\ Forall2 feq ensemble [Fin 60; Fin 60; Fin 60]
      /\ feq confidence (Fin 1)
      /\ ~ feq confidence (Fin 0.6).
Proof.
  split; [reflexivity|]. split; [reflexivity|].
  eexists _, _. split; [vm_compute; reflexivity|].
  split; [repeat constructor|]. split; vm_compute; [reflexivity|discriminate].
Qed.

(** ** The frame the caller is left with *)

Lemma set_period_rows frame col :
  map base_cells (rows (set_period frame col)) = map base_cells (rows frame)
  /\ map demand_cluster (rows (set_period frame col))
     = map demand_cluster (rows frame)
  /\ map period (rows (set_period frame col))
     = map (fun r => Some (col r)) (rows frame).
Proof.
  unfold set_period; simpl. rewrite !map_map. repeat split.
Qed.

Lemma zip_with_cluster_rows (rs : list Row) (col : list Z) :
  length col = length rs ->
  let rs' := zip_with (fun r c =>
               mkRow (origin r) (destination r) (airline r) (date r)
                     (price r) (days_to_departure r) (occupancy_rate r)
                     (period r) (Some c)) rs col in
  map base_cells rs' = map base_cells rs
  /\ map period rs' = map period rs
  /\ map demand_cluster rs' = map Some col.
Proof.
  revert col. induction rs as [|r rs IH]; intros [|c col] Hlen;
    try discriminate; simpl; [repeat split|].
  injection Hlen as Hlen. destruct (IH col Hlen) as (Hb & Hp & Hc).
  simpl in Hb, Hp, Hc. rewrite Hb, Hp, Hc. repeat split.
Qed.

Lemma set_demand_cluster_rows frame col frame' :
  set_demand_cluster frame col = Ok frame' ->
  columns frame' = add_column "demand_cluster" (columns frame)
  /\ map base_cells (rows frame') = map base_cells (rows frame)
  /\ map period (rows frame') = map period (rows frame)
  /\ map demand_cluster (rows frame') = map Some col.
Proof.
  unfold set_demand_cluster.
  destruct (Nat.eqb (length col) (length (rows frame))) eqn:Hlen;
    [|discriminate].
  apply Nat.eqb_eq in Hlen. intros [= <-]; simpl.
  split; [reflexivity|]. apply zip_with_cluster_rows, Hlen.
Qed.

Section FrameEffect.
Context `{Library} (min_segment_size : Z).
Import DataSegmenter.

(** C4, amended.  Route and hierarchical segmentation leave the caller's
    frame as it was.  Temporal segmentation writes the column [period]
    and demand-pattern segmentation, when it clusters, the column
    [demand_cluster]; the records, their order, and the cells of every
    other column stay as they were. *)
Theorem segmentation_frame_effect (frame : DataFrame) :
  (forall segments frame',
      (DivideAndConquerForecaster.divide min_segment_size frame "route"
         = Ok (segments, frame')
       \/ DivideAndConquerForecaster.divide min_segment_size frame
            "hierarchical" = Ok (segments, frame')) ->
      frame' = frame)
  /\ (forall freq,
        let frame' := (segment_by_temporal min_segment_size frame freq).2 in
        columns frame' = add_column "period" (columns frame)
        /\ map base_cells (rows frame') = map base_cells (rows frame)
        /\ map demand_cluster (rows frame')
           = map demand_cluster (rows frame))
  /\ (forall segments frame',
        segment_by_demand_pattern min_segment_size frame
          = Ok (segments, frame') ->
        frame' = frame
        \/ (columns frame' = add_column "demand_cluster" (columns frame)
            /\ map base_cells (rows frame') = map base_cells (rows frame)
            /\ map period (rows frame') = map period (rows frame))).
Proof.
  split; [|split].
  - intros segments frame' [Hrun|Hrun].
    + change (Ok (segment_by_route min_segment_size frame, frame)
              = Ok (segments, frame')) in Hrun.
      injection Hrun as _ <-. reflexivity.
    + change (Ok (hierarchical_segmentation min_segment_size frame, frame)
              = Ok (segments, frame')) in Hrun.
      injection Hrun as _ <-. reflexivity.
  - intros freq frame'. split; [reflexivity|].
    destruct (set_period_rows frame (fun r => to_period freq (date r)))
      as (Hb & Hc & _). split; [exact Hb | exact Hc].
  - intros segments frame'. unfold segment_by_demand_pattern. intros Hrun.
    apply bind_Ok in Hrun as (q & _ & Hrun).
    destruct (Z.min 5 q <? 2); [injection Hrun as _ <-; left; reflexivity|].
    apply bind_Ok in Hrun as (labels & _ & Hrun).
    apply bind_Ok in Hrun as (frame2 & Hset & Hrun).
    injection Hrun as _ <-. right.
    apply set_demand_cluster_rows in Hset as (Hcols & Hb & Hp & _).
    split; [exact Hcols|]. split; [exact Hb | exact Hp].
Qed.
End FrameEffect.

(** C4 as stated fails: after temporal segmentation the caller's frame has
    the additional column [period], and after demand-pattern segmentation
    the additional column [demand_cluster]. *)
Lemma temporal_segmentation_writes_period :
  let result :=
    @DataSegmenter.segment_by_temporal Demo.failing_library 2 Demo.df "M" in
  columns result.2 = columns Demo.df ++ ["period"]
  /\ result.2 <> Demo.df
  /\ exists segments frame,
      @DataSegmenter.segment_by_demand_pattern Demo.failing_library 2 Demo.df
      = Ok (segments, frame)
      /\ columns frame = columns Demo.df ++ ["demand_cluster"]
      /\ frame <> Demo.df.
Proof.
  split; [reflexivity|]. split; [intros Heq; discriminate Heq|].
  eexists _, _. split; [vm_compute; reflexivity|].
  split; [reflexivity | intros Heq; discriminate Heq].
Qed.

(** The frame effect on the four records of the demonstration frame. *)
Lemma segmentation_frame_effect_witness :
  let after_route :=
    Demo.ok_or ([], Demo.empty_df)
      (@DivideAndConquerForecaster.divide Demo.failing_library 2 Demo.df
         "route") in
  let after_temporal :=
    (@DataSegmenter.segment_by_temporal Demo.failing_library 2 Demo.df
       "M").2 in
  let after_demand :=
    Demo.ok_or ([], Demo.empty_df)
      (@DataSegmenter.segment_by_demand_pattern Demo.failing_library 2
         Demo.df) in
  after_route.2 = Demo.df
  /\ map base_cells (rows after_temporal) = map base_cells (rows Demo.df)
  /\ map base_cells (rows after_demand.2) = map base_cells (rows Demo.df).
Proof.
  intros after_route after_temporal after_demand.
  destruct (@segmentation_frame_effect Demo.failing_library 2 Demo.df)
    as (Hroute & Htemporal & Hdemand).
  split; [|split].
  - apply (Hroute after_route.1). left.
    apply is_ok_pair. vm_compute. reflexivity.
  - apply (Htemporal "M").
  - destruct (Hdemand after_demand.1 after_demand.2) as [->|(_ & Hb & _)];
      [apply is_ok_pair; vm_compute; reflexivity | reflexivity | exact Hb].
Defined.

(** ** The properties at concrete inputs *)

Import DivideAndConquerForecaster.

(** The four strategies on the demonstration frame, with a threshold of
    2: the identifiers of the segments and the sizes they record. *)
Example segmentation_examples :
  let summary (s : DataSegment) :=
    (segment_id s, metadata s !! "size", length (rows (data s))) in
  map summary (DataSegmenter.segment_by_route 2 Demo.df)
  = [("route_DEL_BOM", Some (VInt 3), 3%nat)]
  /\ map summary
       (@DataSegmenter.segment_by_temporal Demo.failing_library 2 Demo.df
          "M").1
     = [("temporal_0", Some (VInt 4), 4%nat)]
  /\ map summary
       (Demo.ok_or ([], Demo.empty_df)
          (@DataSegmenter.segment_by_demand_pattern Demo.failing_library 2
             Demo.df)).1
     = [("demand_0", Some (VInt 2), 2%nat);
        ("demand_1", Some (VInt 2), 2%nat)]
  /\ map summary
       (@DataSegmenter.hierarchical_segmentation Demo.failing_library 2
          Demo.df)
     = [("route_DEL_BOM_temporal_0", Some (VInt 3), 3%nat)].
Proof. repeat split; vm_compute; reflexivity. Qed.

(** Two runs of [predict], one through the merge and one on the degenerate
    path, each with a forecast of 3 entries. *)
Lemma predict_forecast_length_witness :
  let merged :=
    Demo.ok_or ∅ (@predict Demo.failing_library 2 Demo.df 3 "route") in
  let degenerate :=
    Demo.ok_or ∅ (@predict Demo.failing_library 10 Demo.df 3 "route") in
  @predict Demo.failing_library 2 Demo.df 3 "route" = Ok merged
  /\ @predict Demo.failing_library 10 Demo.df 3 "route" = Ok degenerate
  /\ (exists forecast,
        merged !! "forecast" = Some (VArray forecast)
        /\ Z.of_nat (length forecast) = 3)
  /\ (exists forecast,
        degenerate !! "forecast" = Some (VArray forecast)
        /\ Z.of_nat (length forecast) = 3).
Proof.
  intros merged degenerate.
  assert (@predict Demo.failing_library 2 Demo.df 3 "route" = Ok merged)
    as Hmerged by (apply is_ok_eq; vm_compute; reflexivity).
  assert (@predict Demo.failing_library 10 Demo.df 3 "route" = Ok degenerate)
    as Hdegenerate by (apply is_ok_eq; vm_compute; reflexivity).
  split; [exact Hmerged|]. split; [exact Hdegenerate|]. split.
  - exact (predict_forecast_length 2 Demo.df 3 "route" _ Hmerged).
  - exact (predict_forecast_length 10 Demo.df 3 "route" _ Hdegenerate).
Defined.

(** [predict] on the frame without records. *)
Lemma predict_empty_dataset_raises_witness :
  rows Demo.empty_df = []
  /\ raises (@predict Demo.naive_library 10 Demo.empty_df 7 "hierarchical").
Proof.
  split; [reflexivity|].
  apply predict_empty_dataset_raises. reflexivity.
Defined.

(** C8.  The result of [predict] does not always carry the requested
    [segmentation_strategy]: with four records and a threshold of 10 no
    segment is formed, [predict] returns through the degenerate path, and
    its result has no [segmentation_strategy] entry, while the merged
    path sets it. *)
Lemma degenerate_result_lacks_segmentation_strategy :
  let res :=
    Demo.ok_or ∅ (@predict Demo.failing_library 10 Demo.df 3 "route") in
  @predict Demo.failing_library 10 Demo.df 3 "route" = Ok res
  /\ res !! "segmentation_strategy" = None
  /\ res !! "segmentation_strategy" <> Some (VStr "route").
Proof.
  split; [apply is_ok_eq; vm_compute; reflexivity|].
  split; [vm_compute; reflexivity | vm_compute; discriminate].
Qed.

(** Two segment forecasts of sizes 10 and 30, confidences 0.5 and 1. *)
Lemma merge_weights_sum_to_one_witness :
  let sfs := Demo.two_forecasts in
  (exists ws,
      @ForecastMerger.size_weights Demo.failing_library sfs = Ok (map Fin ws)
      /\ Forall (fun w => 0 <= w <= 1)%Q ws
      /\ (Qabs (Qsum ws - 1) <= 2 * unit_roundoff)%Q)
  /\ (exists ws,
        @ForecastMerger.confidence_weights Demo.failing_library sfs
        = map Fin ws
        /\ Forall (fun w => 0 <= w <= 1)%Q ws
        /\ (Qabs (Qsum ws - 1)
            <= (2 * inject_Z (Z.of_nat (length sfs)) + 3)
               * unit_roundoff)%Q).
Proof.
  destruct (@merge_weights_sum_to_one Demo.failing_library
              Demo.two_forecasts) as [Hsize Hconf].
  - discriminate.
  - vm_compute. discriminate.
  - split.
    + apply (Hsize [10; 30]).
      * vm_compute. reflexivity.
      * repeat constructor; lia.
      * vm_compute. discriminate.
    + apply (Hconf [0.5; 1]%Q).
      * reflexivity.
      * repeat constructor; try (vm_compute; discriminate);
          vm_compute; reflexivity.
      * vm_compute. reflexivity.
Defined.

(** C6 as stated fails: for the single segment forecast of confidence 0
    the weight of [_confidence_based] is 0/0, a NaN, and so is the sum of
    the weights, which lies in no interval around 1. *)
Lemma zero_confidence_weights_do_not_sum_to_one :
  Demo.doubtful <> []
  /\ @ForecastMerger.confidence_weights Demo.failing_library Demo.doubtful
     = [NaN]
  /\ forall lo hi,
       ~ in_range lo hi
           (@np_sum Demo.failing_library
              (@ForecastMerger.confidence_weights Demo.failing_library
                 Demo.doubtful)).
Proof.
  split; [discriminate|]. split; [vm_compute; reflexivity|].
  intros lo hi Hin. vm_compute in Hin. exact Hin.
Qed.

(** The confidence-based merge of two segment forecasts. *)
Lemma confidence_based_merge_witness :
  let sfs := Demo.two_forecasts in
  let weights :=
    @ForecastMerger.confidence_weights Demo.failing_library sfs in
  exists merged confidence ws,
    @ForecastMerger._confidence_based Demo.failing_library sfs
    = Ok {[ "forecast" := VArray merged;
            "confidence" := VFloat confidence;
            "num_segments" := VInt (Z.of_nat (length sfs));
            "strategy" := VStr "confidence_based";
            "segment_contributions" := VArray weights ]}
    /\ weights
       = map (fun c =>
                @fdiv Demo.failing_library c
                  (@np_sum Demo.failing_library (map sf_confidence sfs)))
             (map sf_confidence sfs)
    /\ weights = map Fin ws
    /\ Forall (fun w => 0 <= w <= 1)%Q ws
    /\ (Qabs (Qsum ws - 1)
        <= (2 * inject_Z (Z.of_nat (length sfs)) + 3) * unit_roundoff)%Q
    /\ merged
       = @spec_weighted_average Demo.failing_library
           (map sf_forecast sfs) weights
    /\ length merged = 2%nat
    /\ confidence ∈ map sf_confidence sfs
    /\ forall c, c ∈ map sf_confidence sfs -> fle c confidence.
Proof.
  apply (@confidence_based_merge Demo.failing_library
           Demo.two_forecasts 2 [0.5; 1]%Q).
  - vm_compute. discriminate.
  - reflexivity.
  - repeat constructor; try (vm_compute; discriminate);
      vm_compute; reflexivity.
  - vm_compute. reflexivity.
  - intros sf Hsf. apply list_elem_of_In in Hsf.
    destruct Hsf as [<-|[<-|[]]]; reflexivity.
Defined.

(** C7 as stated fails: for the single segment forecast of confidence 0
    and forecast [100, 104] the merge returns a NaN weight, whose sum lies
    in no interval around 1, and a forecast of NaN entries. *)
Lemma zero_confidence_merge_is_not_an_average :
  Demo.doubtful <> []
  /\ map sf_forecast Demo.doubtful
     = [[Fin (inject_Z 100); Fin (inject_Z 104)]]
  /\ @ForecastMerger.confidence_merge Demo.failing_library Demo.doubtful
     = Ok ([NaN; NaN], Fin 0, [NaN])
  /\ ~ (exists merged confidence weights lo hi,
          @ForecastMerger.confidence_merge Demo.failing_library Demo.doubtful
          = Ok (merged, confidence, weights)
          /\ in_range lo hi (@np_sum Demo.failing_library weights)).
Proof.
  assert (@ForecastMerger.confidence_merge Demo.failing_library Demo.doubtful
          = Ok ([NaN; NaN], Fin 0, [NaN])) as Hrun
    by (vm_compute; reflexivity).
  split; [discriminate|]. split; [reflexivity|]. split; [exact Hrun|].
  intros (merged & confidence & weights & lo & hi & Hrun' & Hsum).
  rewrite Hrun in Hrun'. injection Hrun' as <- <- <-.
  vm_compute in Hsum. exact Hsum.
Qed.

Import SegmentForecaster.

(** An ensemble of three members that disagree. *)
Lemma ensemble_confidence_in_unit_interval_witness :
  let segment := Demo.whole Demo.df in
  let members :=
    Demo.ok_or ([], []) (@ensemble_members Demo.naive_library segment 3) in
  let res :=
    Demo.ok_or ([], NaN) (@ensemble_forecast Demo.naive_library segment 3) in
  @ensemble_members Demo.naive_library segment 3 = Ok (members.1, members.2)
  /\ (2 <= length members.1)%nat
  /\ @ensemble_forecast Demo.naive_library segment 3 = Ok (res.1, res.2)
  /\ in_range 0 1 res.2.
Proof.
  intros segment members res.
  assert (@ensemble_members Demo.naive_library segment 3
          = Ok (members.1, members.2)) as Hmem
    by (apply is_ok_pair; vm_compute; reflexivity).
  assert (2 <= length members.1)%nat as Hlen
    by (vm_compute; repeat constructor).
  assert (@ensemble_forecast Demo.naive_library segment 3 = Ok (res.1, res.2))
    as Hrun by (apply is_ok_pair; vm_compute; reflexivity).
  split; [exact Hmem|]. split; [exact Hlen|]. split; [exact Hrun|].
  exact (ensemble_confidence_in_unit_interval _ _ _ _ _ _ Hmem Hlen Hrun).
Defined.

(** Prices that cancel out: the combined forecast has mean 0. *)
Lemma ensemble_confidence_without_positive_mean_witness :
  let segment := Demo.whole Demo.zero_df in
  let members :=
    Demo.ok_or ([], []) (@ensemble_members Demo.failing_library segment 3) in
  let ensemble :=
    Demo.ok_or []
      (@np.average_axis0 Demo.failing_library members.1
         (map (fun w =>
                 @fdiv Demo.failing_library w
                   (@py_sum Demo.failing_library members.2)) members.2)) in
  (1 < length members.1)%nat
  /\ fltb (Fin 0) (@np.mean Demo.failing_library ensemble) = false
  /\ @ensemble_forecast Demo.failing_library segment 3 = Ok (ensemble, Fin 0.5).
Proof.
  intros segment members ensemble.
  assert (1 < length members.1)%nat as Hlen
    by (vm_compute; repeat constructor).
  assert (fltb (Fin 0) (@np.mean Demo.failing_library ensemble) = false)
    as Hmean by (vm_compute; reflexivity).
  split; [exact Hlen|]. split; [exact Hmean|].
  apply (@ensemble_confidence_without_positive_mean Demo.failing_library
           segment 3 members.1 members.2 ensemble);
    [apply is_ok_pair; vm_compute; reflexivity | exact Hlen
    | apply is_ok_eq; vm_compute; reflexivity | exact Hmean].
Defined.

(** * Further properties *)

(** ** Conquer: the moving average *)

Lemma last_map_seq {A} (f : nat -> A) (m : nat) :
  last (map f (seq 0 (m + 1))) = Some (f m).
Proof.
  rewrite Nat.add_1_r, seq_S, map_app. simpl. apply last_snoc.
Qed.

Lemma zip_with_replicate_l {A B C} (f : A -> B -> C) (x : A) (l : list B) n :
  length l = n -> zip_with f (replicate n x) l = map (f x) l.
Proof.
  intros <-. induction l as [|y l IH]; simpl; [reflexivity|].
  rewrite IH. reflexivity.
Qed.

Lemma zip_with_replicate_r {A B C} (f : A -> B -> C) (l : list A) (y : B) n :
  length l = n -> zip_with f l (replicate n y) = map (fun x => f x y) l.
Proof.
  intros <-. induction l as [|x l IH]; simpl; [reflexivity|].
  rewrite IH. reflexivity.
Qed.

Section MovingAverage.
Context `{Library}.

(** The last entry of the convolution with the kernel [np.ones(7) / 7]:
    the kernel weighs the last seven values, or all of them when there
    are fewer. *)
Lemma convolve_seventh_last (xs : list float) :
  xs <> [] ->
  exists ma,
    np.convolve_valid xs (replicate 7 seventh) = Ok ma
    /\ last ma
       = Some (if (length xs <? 7)%nat
               then np_sum (map (fmul seventh) (rev xs))
               else np_sum (map (fun x => fmul x seventh)
                                (drop (length xs - 7) xs))).
Proof.
  intros Hne. unfold np.convolve_valid. rewrite length_replicate.
  destruct (length xs <? 7)%nat eqn:Hlen.
  - apply Nat.ltb_lt in Hlen.
    destruct xs as [|x xs']; [contradiction|].
    set (xs := x :: xs') in *.
    eexists. split; [reflexivity|].
    rewrite length_replicate.
    replace (7 - length xs + 1)%nat with ((7 - length xs) + 1)%nat by lia.
    rewrite last_map_seq. f_equal. f_equal.
    rewrite drop_replicate, take_replicate.
    apply zip_with_replicate_l. rewrite length_rev. lia.
  - apply Nat.ltb_ge in Hlen.
    destruct xs as [|x xs']; [contradiction|].
    set (xs := x :: xs') in *.
    eexists. split; [reflexivity|].
    rewrite length_replicate.
    rewrite last_map_seq. f_equal. f_equal.
    assert (rev (replicate 7 seventh) = replicate 7 seventh) as ->
      by reflexivity.
    rewrite zip_with_replicate_r
      by (rewrite length_take, length_drop; lia).
    rewrite take_ge by (rewrite length_drop; lia). reflexivity.
Qed.

Lemma forecast_moving_average_unfold segment horizon :
  forecast_moving_average segment horizon default_window
  = (ma ← np.convolve_valid (prices segment) (replicate 7 seventh);
     np.full horizon
       (match last ma with
        | Some x => x
        | None => np.mean (prices segment)
        end)).
Proof.
  unfold forecast_moving_average. rewrite ones_default_window. reflexivity.
Qed.

Lemma forecast_moving_average_Ok segment horizon :
  prices segment <> [] -> 0 <= horizon <= array_limit ->
  exists x,
    forecast_moving_average segment horizon default_window
    = Ok (replicate (Z.to_nat horizon) x).
Proof.
  intros Hne Hh. rewrite forecast_moving_average_unfold.
  destruct (convolve_seventh_last (prices segment) Hne)
    as (ma & Hconv & Hlast).
  rewrite Hconv. cbn [mbind result_bind]. rewrite Hlast.
  eexists. unfold np.full.
  destruct (horizon <? 0) eqn:E; [lia|].
  destruct (array_limit <? horizon) eqn:E'; [lia | reflexivity].
Qed.

Lemma forecast_moving_average_negative segment horizon :
  horizon < 0 ->
  forecast_moving_average segment horizon default_window = Raise ValueError.
Proof.
  intros Hneg. rewrite forecast_moving_average_unfold.
  destruct (prices segment) as [|p ps] eqn:Hp; [reflexivity|].
  destruct (convolve_seventh_last (p :: ps)) as (ma & Hconv & _);
    [discriminate|].
  rewrite Hconv. cbn [mbind result_bind]. unfold np.full.
  destruct (horizon <? 0) eqn:E; [reflexivity | lia].
Qed.

Lemma forecast_moving_average_refused segment horizon :
  prices segment <> [] -> array_limit < horizon ->
  forecast_moving_average segment horizon default_window
  = Raise (array_refusal horizon).
Proof.
  intros Hne Hbig. rewrite forecast_moving_average_unfold.
  destruct (convolve_seventh_last (prices segment) Hne) as (ma & Hconv & _).
  rewrite Hconv. cbn [mbind result_bind]. unfold np.full.
  pose proof array_limit_window.
  destruct (horizon <? 0) eqn:E; [lia|].
  destruct (array_limit <? horizon) eqn:E'; [reflexivity | lia].
Qed.

(** X1.  The moving-average forecast of a segment with at least one price
    returns [horizon] copies of one number when the horizon is not
    negative and an array of that length can be allocated, and raises
    what the allocation raises when it cannot; on a segment without
    prices and on a negative horizon it raises [ValueError]. *)
Theorem forecast_moving_average_returns segment horizon :
  (prices segment <> [] -> 0 <= horizon <= array_limit ->
   exists x,
     forecast_moving_average segment horizon default_window
     = Ok (replicate (Z.to_nat horizon) x))
  /\ (prices segment <> [] -> array_limit < horizon ->
      forecast_moving_average segment horizon default_window
      = Raise (array_refusal horizon))
  /\ (prices segment = [] \/ horizon < 0 ->
      forecast_moving_average segment horizon default_window
      = Raise ValueError).
Proof.
  split; [apply forecast_moving_average_Ok|].
  split; [apply forecast_moving_average_refused|].
  intros [Hnil|Hneg]; [|apply forecast_moving_average_negative, Hneg].
  rewrite forecast_moving_average_unfold, Hnil. reflexivity.
Qed.
End MovingAverage.

(** ** Conquer: the ensemble always forms *)

Section EnsembleReturns.
Context `{Library}.












Lemma ensemble_forecast_raises segment horizon e :
  forecast_moving_average segment horizon default_window = Raise e ->
  ensemble_forecast segment horizon = Raise e.
Proof.
  intros Hma. unfold ensemble_forecast, ensemble_members.
  rewrite Hma. reflexivity.
Qed.



(** *** The confidence of an ensemble is a binary64 number *)


End EnsembleReturns.




(** ** Combine: degenerate input *)

Section MergeCorners.
Context `{Library}.

(** X9.  Every merge strategy raises [ZeroDivisionError] on an empty list
    of segment forecasts, and a strategy name other than the three known
    ones raises [ValueError] on every list. *)
Theorem merge_degenerate_input :
  (forall strategy,
      strategy ∈ ["weighted_average"; "confidence_based"; "hierarchical"] ->
      ForecastMerger.merge [] strategy = Raise ZeroDivisionError)
  /\ (forall segment_forecasts strategy,
        strategy ∉ ["weighted_average"; "confidence_based"; "hierarchical"] ->
        ForecastMerger.merge segment_forecasts strategy = Raise ValueError).
Proof.
  split.
  - intros strategy Hin. apply list_elem_of_In in Hin.
    destruct Hin as [<-|[<-|[<-|[]]]]; vm_compute; reflexivity.
  - intros sfs strategy Hnot. unfold ForecastMerger.merge.
    repeat destruct (decide _) as [->|?]; try reflexivity;
      exfalso; apply Hnot; apply list_elem_of_In; simpl; tauto.
Qed.

(** ** Combine: segments without confidence *)

Lemma np_sum_NaN (xs : list float) :
  xs <> [] -> Forall (fun x => x = NaN) xs -> np_sum xs = NaN.
Proof.
  intros Hne Hall. destruct Hall as [|x xs -> _]; [contradiction|].
  reflexivity.
Qed.

Lemma fdiv_NaN_r a : fdiv a NaN = NaN.
Proof. destruct a; reflexivity. Qed.

(** Zeros sum to zero: rounding leaves zero alone. *)
Lemma np_sum_zeros (qs : list Q) :
  Forall (fun q => q == 0)%Q qs ->
  exists s, np_sum (map Fin qs) = Fin s /\ (s == 0)%Q.
Proof.
  induction 1 as [|q qs Hq _ (s & IH & Hs)].
  - exists 0%Q. split; reflexivity.
  - cbn [map]. change (np_sum (Fin q :: map Fin qs))
      with (fadd (Fin q) (np_sum (map Fin qs))).
    rewrite IH. cbn [fadd].
    destruct (round64_value (q + s) 0) as (r & -> & Hr);
      [rewrite Hq, Hs; reflexivity | exact representable_0 |].
    exists r. split; [reflexivity | exact Hr].
Qed.

Lemma zero_weights (qs : list Q) (s : Q) :
  (s == 0)%Q -> Forall (fun q => q == 0)%Q qs ->
  map (fun c => fdiv c (Fin s)) (map Fin qs) = replicate (length qs) NaN.
Proof.
  intros Hs Hqs. apply Qis0_true in Hs.
  induction Hqs as [|q qs Hq _ IH]; [reflexivity|].
  apply Qis0_true in Hq. cbn [map length replicate fdiv].
  rewrite Hs, Hq, IH. reflexivity.
Qed.

Lemma map_seq_const {A} (f : nat -> A) (y : A) (m n : nat) :
  (forall j, f j = y) -> map f (seq m n) = replicate n y.
Proof.
  intros Hf. revert m. induction n as [|n IH]; intros m; [reflexivity|].
  simpl. rewrite Hf, IH. reflexivity.
Qed.

Lemma confidence_merge_zero_confidence segment_forecasts (n : nat) :
  segment_forecasts <> [] ->
  Forall (fun c => feq c (Fin 0)) (map sf_confidence segment_forecasts) ->
  (forall sf, sf ∈ segment_forecasts -> length (sf_forecast sf) = n) ->
  exists confidence weights,
    ForecastMerger.confidence_merge segment_forecasts
    = Ok (replicate n NaN, confidence, weights).
Proof.
  intros Hne Hzero Hlen.
  assert (Forall finite (map sf_confidence segment_forecasts)) as Hfin.
  { eapply Forall_impl; [exact Hzero|]. intros [| | |]; simpl; tauto. }
  destruct (finite_list _ Hfin) as (qs & Hqs).
  assert (Forall (fun q => q == 0)%Q qs) as Hqs0.
  { rewrite Hqs in Hzero. clear -Hzero.
    induction qs as [|q qs IH]; [constructor|].
    inversion Hzero; subst. constructor; [assumption | apply IH; assumption]. }
  assert (length qs = length segment_forecasts) as Hcount.
  { rewrite <- (length_map Fin qs), <- Hqs. apply length_map. }
  assert (ForecastMerger.confidence_weights segment_forecasts
          = replicate (length segment_forecasts) NaN) as Hw.
  { unfold ForecastMerger.confidence_weights. cbv zeta.
    rewrite Hqs. destruct (np_sum_zeros qs Hqs0) as (s & -> & Hs).
    rewrite <- Hcount. apply zero_weights; assumption. }
  assert (np_sum (replicate (length segment_forecasts) NaN) = NaN) as Hscl.
  { apply np_sum_NaN.
    - destruct segment_forecasts; [contradiction | discriminate].
    - apply Forall_forall. intros x Hx.
      apply elem_of_replicate in Hx as [-> _]. reflexivity. }
  assert (length (hd [] (map sf_forecast segment_forecasts)) = n) as Hhd.
  { destruct segment_forecasts as [|sf rest]; [contradiction|].
    apply Hlen. left. }
  unfold ForecastMerger.confidence_merge.
  cbv zeta. rewrite Hw. unfold np.average_axis0.
  rewrite (same_lengths_common (map sf_forecast segment_forecasts) n).
  2:{ intros f Hf. apply list_elem_of_fmap in Hf as (sf & -> & Hsf).
      apply Hlen, Hsf. }
  cbn [negb]. rewrite length_replicate, length_map, Nat.eqb_refl. cbn [negb].
  cbv zeta. rewrite Hscl, Hhd. cbn [feqb mbind result_bind].
  rewrite (map_seq_const _ NaN) by (intros j; apply fdiv_NaN_r).
  destruct (map sf_confidence segment_forecasts) as [|c cs] eqn:Hcs.
  { destruct segment_forecasts; [contradiction | discriminate]. }
  cbn [np.max mbind result_bind]. eexists _, _. reflexivity.
Qed.

(** X12.  When every segment has confidence 0, the confidence-based merge
    does not raise: it returns a forecast whose every entry is NaN. *)
Theorem confidence_based_zero_confidence segment_forecasts (n : nat) :
  segment_forecasts <> [] ->
  Forall (fun c => feq c (Fin 0)) (map sf_confidence segment_forecasts) ->
  (forall sf, sf ∈ segment_forecasts -> length (sf_forecast sf) = n) ->
  exists res,
    ForecastMerger._confidence_based segment_forecasts = Ok res
    /\ res !! "forecast" = Some (VArray (replicate n NaN)).
Proof.
  intros Hne Hzero Hlen.
  destruct (confidence_merge_zero_confidence segment_forecasts n
              Hne Hzero Hlen) as (confidence & weights & Hrun).
  unfold ForecastMerger._confidence_based. rewrite Hrun.
  cbn [mbind result_bind]. eexists. split; reflexivity.
Qed.
End MergeCorners.

(** A single segment forecast of confidence 0. *)
Lemma confidence_based_zero_confidence_witness :
  exists res,
    @ForecastMerger._confidence_based Demo.failing_library Demo.doubtful = Ok res
    /\ res !! "forecast" = Some (VArray [NaN; NaN]).
Proof.
  apply (@confidence_based_zero_confidence Demo.failing_library
           Demo.doubtful 2).
  - discriminate.
  - repeat constructor.
  - intros sf Hsf. apply list_elem_of_In in Hsf.
    destruct Hsf as [<-|[]]. reflexivity.
Defined.

(** ** Combine: the groups of the hierarchical merge *)

Section Hierarchy.
Context `{Library}.
Import ForecastMerger.

Lemma hierarchy_add_keys key sf h :
  map fst (hierarchy_add key sf h)
  = if decide (key ∈ map fst h) then map fst h else map fst h ++ [key].
Proof.
  induction h as [|[k g] h IH].
  - cbn [hierarchy_add map].
    destruct (decide (key ∈ [])) as [Hin|_]; [inversion Hin | reflexivity].
  - cbn [hierarchy_add map fst].
    destruct (decide (k = key)) as [->|Hne]; cbn [map fst].
    + destruct (decide (key ∈ key :: map fst h)) as [_|Hnin];
        [reflexivity | exfalso; apply Hnin; left].
    + rewrite IH.
      destruct (decide (key ∈ map fst h)) as [Hin|Hnin],
        (decide (key ∈ k :: map fst h)) as [Hin'|Hnin']; try reflexivity.
      * exfalso. apply Hnin'. right. exact Hin.
      * exfalso. apply elem_of_cons in Hin' as [Heq|Hin'];
          [congruence | contradiction].
Qed.

Lemma hierarchy_add_concat key sf h :
  concat (map snd (hierarchy_add key sf h)) ≡ₚ concat (map snd h) ++ [sf].
Proof.
  induction h as [|[k g] h IH]; simpl; [reflexivity|].
  destruct (decide (k = key)); simpl.
  - rewrite <- !app_assoc. apply Permutation_app_head, Permutation_app_comm.
  - rewrite IH, app_assoc. reflexivity.
Qed.

Lemma hierarchy_add_keyed sf h :
  keyed h -> keyed (hierarchy_add (group_key sf) sf h).
Proof.
  intros [Hnd Hall]. split.
  - rewrite hierarchy_add_keys. destruct (decide _) as [|Hnin]; [exact Hnd|].
    apply NoDup_app. split; [exact Hnd|]. split.
    + intros k Hk Hk'. apply list_elem_of_singleton in Hk' as ->.
      contradiction.
    + apply NoDup_singleton.
  - clear Hnd. induction Hall as [|[k g] h [Hne Hg] Hall IH]; simpl.
    + repeat constructor; discriminate.
    + destruct (decide (k = group_key sf)) as [->|Hk].
      * constructor; [|exact Hall]. simpl in *. split.
        { destruct g; discriminate. }
        { apply Forall_app. split; [exact Hg | repeat constructor]. }
      * constructor; [split; assumption | exact IH].
Qed.

Lemma hierarchy_fold sfs h :
  keyed h ->
  let h' := fold_left (fun h sf => hierarchy_add (group_key sf) sf h) sfs h in
  keyed h' /\ concat (map snd h') ≡ₚ concat (map snd h) ++ sfs.
Proof.
  revert h. induction sfs as [|sf sfs IH]; intros h Hk; simpl.
  - split; [exact Hk | rewrite app_nil_r; reflexivity].
  - destruct (IH _ (hierarchy_add_keyed sf h Hk)) as [Hk' Hperm].
    split; [exact Hk'|].
    rewrite Hperm, hierarchy_add_concat, <- app_assoc. reflexivity.
Qed.

Lemma hierarchy_of_keyed sfs :
  keyed (hierarchy_of sfs) /\ concat (map snd (hierarchy_of sfs)) ≡ₚ sfs.
Proof.
  destruct (hierarchy_fold sfs []) as [Hk Hperm]; [split; constructor|].
  split; [exact Hk | exact Hperm].
Qed.

Lemma hierarchical_merge_unfold segment_forecasts :
  _hierarchical_merge segment_forecasts
  = (let hierarchy := hierarchy_of segment_forecasts in
     group_forecasts ← mapM (fun g => confidence_merge g.2) hierarchy;
     let final_forecasts := map (fun gf => gf.1.1) group_forecasts in
     let final_confidences := map (fun gf => gf.1.2) group_forecasts in
     let weights :=
       map (fun c => fdiv c (py_sum final_confidences)) final_confidences in
     merged_forecast ← np.average_axis0 final_forecasts weights;
     Ok {[ "forecast" := VArray merged_forecast;
           "confidence" := VFloat (np.mean final_confidences);
           "num_segments" := VInt (Z.of_nat (length segment_forecasts));
           "num_groups" := VInt (Z.of_nat (length hierarchy));
           "strategy" := VStr "hierarchical" ]}).
Proof. reflexivity. Qed.

(** X13.  The hierarchical merge puts every segment forecast into
    exactly one group, under the key made of the first two tokens of its
    identifier: the keys are distinct, no group is empty, the groups
    together hold the forecasts that were given, and a result reports
    the number of groups and of forecasts. *)
Theorem hierarchical_merge_groups segment_forecasts :
  let hierarchy := hierarchy_of segment_forecasts in
  NoDup (map fst hierarchy)
  /\ concat (map snd hierarchy) ≡ₚ segment_forecasts
  /\ Forall (fun g => g.2 <> []
                      /\ Forall (fun sf => group_key sf = g.1) g.2) hierarchy
  /\ (length hierarchy <= length segment_forecasts)%nat
  /\ forall res,
      _hierarchical_merge segment_forecasts = Ok res ->
      res !! "num_groups" = Some (VInt (Z.of_nat (length hierarchy)))
      /\ res !! "num_segments"
         = Some (VInt (Z.of_nat (length segment_forecasts))).
Proof.
  intros hierarchy.
  destruct (hierarchy_of_keyed segment_forecasts) as [[Hnd Hall] Hperm].
  fold hierarchy in Hnd, Hall, Hperm.
  split; [exact Hnd|]. split; [exact Hperm|]. split; [exact Hall|]. split.
  - rewrite <- (Permutation_length Hperm). clear -Hall.
    induction Hall as [|[k g] h [Hne _] _ IH]; simpl; [lia|].
    rewrite length_app. destruct g; [contradiction|]. simpl in *. lia.
  - intros res Hrun. rewrite hierarchical_merge_unfold in Hrun.
    cbv zeta in Hrun. fold hierarchy in Hrun.
    apply bind_Ok in Hrun as (gfs & _ & Hrun).
    apply bind_Ok in Hrun as (merged & _ & Hrun).
    injection Hrun as <-. split; reflexivity.
Qed.

End Hierarchy.

(** ** Combine after divide: what the hierarchical merge groups by *)

Lemma append_assoc (a b c : string) : (a +:+ b) +:+ c = a +:+ (b +:+ c).
Proof.
  induction a as [|x a IH]; [reflexivity|].
  change (String x ((a +:+ b) +:+ c) = String x (a +:+ (b +:+ c))).
  rewrite IH. reflexivity.
Qed.

(** The first token ends at the first separator. *)
Lemma split_underscore_token (a b : string) :
  has_underscore a = false ->
  ForecastMerger.split_underscore (a +:+ "_" +:+ b)
  = a :: ForecastMerger.split_underscore b.
Proof.
  induction a as [|x a IH]; intros Ha; [reflexivity|].
  cbn [has_underscore] in Ha. apply orb_false_iff in Ha as [Hx Ha].
  change (String x a +:+ "_" +:+ b) with (String x (a +:+ "_" +:+ b)).
  cbn [ForecastMerger.split_underscore]. rewrite Hx, (IH Ha). reflexivity.
Qed.

Lemma group_key_route (origin rest : string) forecast confidence meta :
  has_underscore origin = false ->
  ForecastMerger.group_key
    (mkForecast ("route_" +:+ origin +:+ "_" +:+ rest)
                forecast confidence meta)
  = "route_" +:+ origin.
Proof.
  intros Ho. unfold ForecastMerger.group_key. cbn [sf_segment_id].
  change ("route_" +:+ origin +:+ "_" +:+ rest)
    with ("route" +:+ "_" +:+ (origin +:+ "_" +:+ rest)).
  rewrite (split_underscore_token "route") by reflexivity.
  rewrite (split_underscore_token origin) by exact Ho.
  reflexivity.
Qed.

Section HierarchicalIds.
Context `{Library} (min_segment_size : Z).
Import DataSegmenter.

Lemma route_segment_id g s :
  route_segment min_segment_size g = Some s ->
  segment_id s = "route_" +:+ g.1.1 +:+ "_" +:+ g.1.2
  /\ metadata s !! "origin" = Some (VStr g.1.1)
  /\ metadata s !! "destination" = Some (VStr g.1.2).
Proof.
  destruct g as [[o d] grp]. unfold route_segment.
  destruct (min_segment_size <=? len grp); [|discriminate].
  intros [= <-]. repeat split.
Qed.

(** X15.  The identifier of every segment of the hierarchical
    segmentation starts with [route_], the origin and a separator, and
    when the origin holds no separator, the key under which the
    hierarchical merge groups the segment's forecast is [route_] and the
    origin alone: routes out of one origin fall into one group, whatever
    their destination. *)
Theorem hierarchical_segments_group_by_origin (frame : DataFrame) :
  Forall (fun segment =>
            exists origin rest,
              segment_id segment = "route_" +:+ origin +:+ "_" +:+ rest
              /\ metadata segment !! "origin" = Some (VStr origin)
              /\ (has_underscore origin = false ->
                  forall forecast confidence,
                    ForecastMerger.group_key
                      (mkForecast (segment_id segment) forecast confidence
                                  (metadata segment))
                    = "route_" +:+ origin))
         (hierarchical_segmentation min_segment_size frame).
Proof.
  apply Forall_forall. intros segment Hin.
  unfold hierarchical_segmentation in Hin.
  apply list_elem_of_In, in_concat in Hin as (l & Hl & Hs).
  apply list_elem_of_In, list_elem_of_fmap in Hl as (rs & -> & Hrs).
  apply list_elem_of_In, list_elem_of_fmap in Hs as (ts & -> & _).
  apply list_elem_of_omap in Hrs as ([[o d] grp] & _ & Hroute).
  apply route_segment_id in Hroute as (Hid & Ho & _). simpl in Hid, Ho.
  exists o, (d +:+ "_" +:+ segment_id ts). cbn [segment_id metadata].
  assert (segment_id rs +:+ "_" +:+ segment_id ts
          = "route_" +:+ o +:+ "_" +:+ d +:+ "_" +:+ segment_id ts) as Heq.
  { rewrite Hid. rewrite !append_assoc. reflexivity. }
  split; [exact Heq|]. split.
  - apply lookup_union_Some_l. exact Ho.
  - intros Hund forecast confidence. rewrite Heq.
    apply group_key_route, Hund.
Qed.
End HierarchicalIds.

(** The keys under which the forecasts of the hierarchical segments of
    the demonstration frame are grouped. *)
Example hierarchical_group_keys :
  map (fun s => ForecastMerger.group_key
                  (mkForecast (segment_id s) [] (Fin 1) (metadata s)))
      (@DataSegmenter.hierarchical_segmentation Demo.failing_library 1
         Demo.df)
  = ["route_BLR"; "route_DEL"].
Proof. vm_compute. reflexivity. Qed.

(** ** Divide: the size a segment records *)

Section SegmentRecords.
Context `{Library} (min_segment_size : Z).
Import DataSegmenter.

Lemma kept_groups_own_size {K} `{EqDecision K} (leb : K -> K -> bool)
    (key : Row -> option K) (keep : K * DataFrame -> option DataSegment)
    frame :
  (forall g s, keep g = Some s -> records_own_size s) ->
  Forall records_own_size (omap keep (groupby leb key frame)).
Proof.
  intros Hkeep. apply Forall_forall. intros s Hs.
  apply list_elem_of_omap in Hs as (g & _ & Hg). exact (Hkeep g s Hg).
Qed.

Lemma route_segment_own_size g s :
  route_segment min_segment_size g = Some s -> records_own_size s.
Proof.
  destruct g as [[o d] grp]. unfold route_segment.
  destruct (min_segment_size <=? len grp); [|discriminate].
  intros [= <-]. reflexivity.
Qed.

Lemma temporal_segment_own_size freq g s :
  temporal_segment min_segment_size freq g = Some s -> records_own_size s.
Proof.
  destruct g as [p grp]. unfold temporal_segment.
  destruct (min_segment_size <=? len grp); [|discriminate].
  intros [= <-]. reflexivity.
Qed.

Lemma airline_segment_own_size g s :
  airline_segment min_segment_size g = Some s -> records_own_size s.
Proof.
  destruct g as [a grp]. unfold airline_segment.
  destruct (min_segment_size <=? len grp); [|discriminate].
  intros [= <-]. reflexivity.
Qed.

Lemma demand_segment_own_size g s :
  demand_segment min_segment_size g = Some s -> records_own_size s.
Proof.
  destruct g as [c grp]. unfold demand_segment.
  destruct (min_segment_size <=? len grp); [|discriminate].
  intros [= <-]. reflexivity.
Qed.

Lemma groupby_rows {K} `{EqDecision K} (leb : K -> K -> bool)
    (key : Row -> option K) frame k g :
  (k, g) ∈ groupby leb key frame ->
  rows g = filter (fun r => key r = Some k) (rows frame)
  /\ columns g = columns frame.
Proof.
  unfold groupby. intros Hin.
  apply list_elem_of_fmap in Hin as (k' & [= -> ->] & _). split; reflexivity.
Qed.

(** X16.  Under the four flat strategies every segment records as
    [size] the number of its own records; a segment of the hierarchical
    segmentation records the number of records of the route segment it
    was cut from, and holds at most as many itself. *)
Theorem segments_recorded_size (frame : DataFrame) (freq : string) :
  Forall records_own_size (segment_by_route min_segment_size frame)
  /\ Forall records_own_size
            (segment_by_temporal min_segment_size frame freq).1
  /\ Forall records_own_size (segment_by_airline min_segment_size frame)
  /\ match segment_by_demand_pattern min_segment_size frame with
     | Ok (segments, _) => Forall records_own_size segments
     | Raise _ => True
     end
  /\ Forall (fun s =>
               exists route_segment,
                 route_segment ∈ segment_by_route min_segment_size frame
                 /\ metadata s !! "size"
                    = Some (VInt (len (data route_segment)))
                 /\ len (data s) <= len (data route_segment))
            (hierarchical_segmentation min_segment_size frame).
Proof.
  split; [apply kept_groups_own_size, route_segment_own_size|].
  split; [apply kept_groups_own_size, temporal_segment_own_size|].
  split; [apply kept_groups_own_size, airline_segment_own_size|].
  split.
  { destruct (segment_by_demand_pattern min_segment_size frame)
      as [[segments frame']|e] eqn:Hrun; [|exact I].
    unfold segment_by_demand_pattern in Hrun.
    apply bind_Ok in Hrun as (q & _ & Hrun).
    destruct (Z.min 5 q <? 2); [injection Hrun as <- _; constructor|].
    apply bind_Ok in Hrun as (labels & _ & Hrun).
    apply bind_Ok in Hrun as (frame2 & _ & Hrun).
    injection Hrun as <- _.
    apply kept_groups_own_size, demand_segment_own_size. }
  apply Forall_forall. intros s Hin. unfold hierarchical_segmentation in Hin.
  apply list_elem_of_In, in_concat in Hin as (l & Hl & Hs).
  apply list_elem_of_In, list_elem_of_fmap in Hl as (rs & -> & Hrs).
  apply list_elem_of_In, list_elem_of_fmap in Hs as (ts & -> & Hts).
  exists rs. split; [exact Hrs|]. cbn [metadata data]. split.
  - apply lookup_union_Some_l.
    apply list_elem_of_omap in Hrs as (g & _ & Hg).
    exact (route_segment_own_size g rs Hg).
  - unfold segment_by_temporal in Hts. cbn [fst] in Hts.
    apply list_elem_of_omap in Hts as ([p grp] & Hgrp & Hkeep).
    apply groupby_rows in Hgrp as [Hrows _].
    unfold temporal_segment in Hkeep.
    destruct (min_segment_size <=? len grp); [|discriminate].
    injection Hkeep as <-. cbn [data]. unfold len, copy. cbn [rows].
    rewrite Hrows. cbn [set_period rows].
    pose proof (length_filter (fun r => period r = Some p)
      (map (fun r => mkRow (origin r) (destination r) (airline r) (date r)
              (price r) (days_to_departure r) (occupancy_rate r)
              (Some (to_period "W" (date r))) (demand_cluster r))
           (rows (data rs)))) as Hle.
    rewrite length_map in Hle. lia.
Qed.
End SegmentRecords.

(** ** The orders of the key columns *)

Lemma string_compare_trans (s1 s2 s3 : string) :
  String.compare s1 s2 <> Gt -> String.compare s2 s3 <> Gt ->
  String.compare s1 s3 <> Gt.
Proof.
  revert s2 s3. induction s1 as [|a s1 IH]; intros [|b s2] [|c s3];
    simpl; try congruence.
  unfold Ascii.compare.
  destruct (N.compare_spec (N_of_ascii a) (N_of_ascii b)) as [Hab|Hab|Hab],
           (N.compare_spec (N_of_ascii b) (N_of_ascii c)) as [Hbc|Hbc|Hbc],
           (N.compare_spec (N_of_ascii a) (N_of_ascii c)) as [Hac|Hac|Hac];
    try congruence; try lia.
  apply IH.
Qed.

Lemma string_leb_order : total_order String.leb.
Proof.
  split; [exact String.leb_total|]. split; [exact String.leb_antisym|].
  intros a b c. unfold String.leb.
  pose proof (string_compare_trans a b c) as Htrans.
  destruct (String.compare a b), (String.compare b c), (String.compare a c);
    try discriminate; try reflexivity; intros _ _; exfalso;
    apply Htrans; discriminate || reflexivity.
Qed.

Lemma pair_leb_order : total_order pair_leb.
Proof.
  destruct string_leb_order as (Htotal & Hanti & Htrans).
  unfold pair_leb. split; [|split].
  - intros [a1 a2] [b1 b2]; simpl.
    destruct (decide (a1 = b1)) as [->|Hne].
    + rewrite decide_True by reflexivity. apply Htotal.
    + rewrite decide_False by congruence. apply Htotal.
  - intros [a1 a2] [b1 b2]; simpl.
    destruct (decide (a1 = b1)) as [->|Hne].
    + rewrite decide_True by reflexivity. intros H1 H2.
      f_equal. apply Hanti; assumption.
    + rewrite decide_False by congruence. intros H1 H2.
      exfalso. apply Hne, Hanti; assumption.
  - intros [a1 a2] [b1 b2] [c1 c2]; simpl.
    destruct (decide (a1 = b1)) as [->|Hab].
    + destruct (decide (b1 = c1)) as [->|Hbc]; [apply Htrans|]. auto.
    + destruct (decide (b1 = c1)) as [->|Hbc].
      * rewrite decide_False by assumption. auto.
      * intros H1 H2. destruct (decide (a1 = c1)) as [->|Hac].
        -- exfalso. apply Hab, Hanti; assumption.
        -- exact (Htrans _ _ _ H1 H2).
Qed.

Lemma Z_leb_order : total_order Z.leb.
Proof.
  split; [|split]; intros; lia.
Qed.

(** ** Grouping: distinct keys, and every record in one group *)

Section GroupCount.
Context {K : Type} `{EqDecision K} (leb : K -> K -> bool).
Hypothesis leb_order : total_order leb.

Lemma insert_key_sorted (k : K) ks :
  StronglySorted (below leb) ks -> StronglySorted (below leb) (insert_key leb k ks).
Proof.
  destruct leb_order as (Htotal & Hanti & Htrans).
  induction 1 as [|x t Hsorted IH Hx]; simpl.
  - repeat constructor.
  - destruct (decide (k = x)) as [->|Hne]; [constructor; assumption|].
    destruct (leb k x) eqn:Hkx.
    + constructor; [constructor; assumption|].
      constructor; [split; assumption|].
      eapply Forall_impl; [exact Hx|]. intros y [Hxy Hne'].
      split; [exact (Htrans _ _ _ Hkx Hxy)|].
      intros ->. apply Hne'. apply Hanti; assumption.
    + constructor; [exact IH|].
      apply Forall_forall. intros y Hy.
      apply elem_of_insert_key in Hy as [->|Hy].
      * split; [|congruence].
        destruct (Htotal k x) as [Hf|Ht]; [congruence|exact Ht].
      * rewrite Forall_forall in Hx. exact (Hx y Hy).
Qed.

Lemma sorted_keys_sorted (l : list K) :
  StronglySorted (below leb) (sorted_keys leb l).
Proof.
  induction l as [|k l IH]; simpl; [constructor|].
  apply insert_key_sorted, IH.
Qed.

Lemma sorted_keys_NoDup (l : list K) : NoDup (sorted_keys leb l).
Proof.
  pose proof (sorted_keys_sorted l) as Hsorted.
  induction Hsorted as [|x t Hsorted IH Hx]; constructor; [|exact IH].
  intros Hin. rewrite Forall_forall in Hx.
  destruct (Hx x Hin) as [_ Hne]. exact (Hne eq_refl).
Qed.

Lemma groupby_keys (key : Row -> option K) frame :
  map fst (groupby leb key frame) = sorted_keys leb (omap key (rows frame)).
Proof.
  unfold groupby. rewrite map_map. simpl. apply map_id.
Qed.

Lemma key_count_le (key : Row -> option K) (r : Row) ks :
  NoDup ks ->
  (sum_list_with (fun k => if decide (key r = Some k) then 1%nat else 0%nat) ks
   <= 1)%nat
  /\ (forall k, k ∈ ks -> key r = Some k ->
      sum_list_with (fun k => if decide (key r = Some k) then 1%nat else 0%nat) ks
      = 1%nat).
Proof.
  induction 1 as [|x ks Hx Hnd [IHle IHeq]]; simpl.
  - split; [lia|]. intros k Hk. inversion Hk.
  - assert (key r = Some x ->
            sum_list_with
              (fun k => if decide (key r = Some k) then 1%nat else 0%nat) ks = 0%nat)
      as Hzero.
    { intros Hkey. clear IHle IHeq Hnd.
      induction ks as [|y ks IH]; simpl; [reflexivity|].
      rewrite IH by (intros Hin; apply Hx; right; exact Hin).
      destruct (decide (key r = Some y)) as [Hy|]; [|reflexivity].
      exfalso. apply Hx. replace y with x by congruence. left. }
    destruct (decide (key r = Some x)) as [Hkey|Hkey].
    + rewrite (Hzero Hkey). split; [lia|]. intros; lia.
    + split; [lia|]. intros k Hk Hr.
      apply elem_of_cons in Hk as [->|Hk]; [contradiction|].
      rewrite (IHeq k Hk Hr). reflexivity.
Qed.

Lemma group_sizes (key : Row -> option K) (l : list Row) ks :
  NoDup ks ->
  (sum_list_with (fun k => length (filter (fun r => key r = Some k) l)) ks
   <= length l)%nat
  /\ ((forall r, r ∈ l -> exists k, k ∈ ks /\ key r = Some k) ->
      sum_list_with (fun k => length (filter (fun r => key r = Some k) l)) ks
      = length l).
Proof.
  intros Hnd. induction l as [|r l [IHle IHeq]].
  - assert (sum_list_with
              (fun k => length (filter (fun r => key r = Some k) [])) ks
            = 0%nat) as ->
      by (clear Hnd; induction ks as [|k ks IH]; [reflexivity|exact IH]).
    split; [simpl; lia|reflexivity].
  - assert (sum_list_with
              (fun k => length (filter (fun r => key r = Some k) (r :: l))) ks
            = (sum_list_with
                 (fun k => if decide (key r = Some k) then 1%nat else 0%nat) ks
               + sum_list_with
                   (fun k => length (filter (fun r => key r = Some k) l)) ks)%nat)
      as ->.
    { clear. induction ks as [|k ks IH]; simpl; [reflexivity|].
      rewrite IH, filter_cons.
      destruct (decide (key r = Some k)); simpl; lia. }
    destruct (key_count_le key r ks Hnd) as [Hle Heq].
    split; [simpl; lia|].
    intros Hall.
    destruct (Hall r) as (k & Hk & Hr); [left|].
    rewrite (Heq k Hk Hr), IHeq; [reflexivity|].
    intros r' Hr'. apply Hall. right. exact Hr'.
Qed.

(** What [groupby] followed by the size guard keeps holds at most the
    records of the frame, and all of them when every record has a key
    and every group is kept. *)
Lemma kept_groups_total (key : Row -> option K)
    (keep : K * DataFrame -> option DataSegment) frame :
  (forall g s, keep g = Some s -> rows (data s) = rows g.2) ->
  (total_records (omap keep (groupby leb key frame))
   <= length (rows frame))%nat
  /\ ((forall r, r ∈ rows frame -> is_Some (key r)) ->
      (forall g, g ∈ groupby leb key frame -> is_Some (keep g)) ->
      total_records (omap keep (groupby leb key frame))
      = length (rows frame)).
Proof.
  intros Hkeep.
  destruct (group_sizes key (rows frame) (sorted_keys leb (omap key (rows frame)))
              (sorted_keys_NoDup _)) as [Hle Heq].
  assert (sum_list_with (fun g : K * DataFrame => length (rows g.2))
            (groupby leb key frame)
          = sum_list_with
              (fun k => length (filter (fun r => key r = Some k) (rows frame)))
              (sorted_keys leb (omap key (rows frame)))) as Hgroups.
  { unfold groupby. clear Hle Heq.
    induction (sorted_keys leb (omap key (rows frame))) as [|k ks IH];
      [reflexivity|].
    cbn [map sum_list_with snd rows]. f_equal. exact IH. }
  assert (forall gs : list (K * DataFrame),
            (total_records (omap keep gs)
             <= sum_list_with (fun g : K * DataFrame => length (rows g.2)) gs)%nat
            /\ ((forall g, g ∈ gs -> is_Some (keep g)) ->
                total_records (omap keep gs)
                = sum_list_with
                    (fun g : K * DataFrame => length (rows g.2)) gs))
    as Hkept.
  { unfold total_records. induction gs as [|g gs [IHle IHeq]]; simpl.
    - split; [lia|reflexivity].
    - destruct (keep g) as [s|] eqn:Hg; simpl.
      + rewrite (Hkeep g s Hg).
        split; [apply Nat.add_le_mono_l; exact IHle|].
        intros Hall. f_equal. apply IHeq.
        intros g' Hg'. apply Hall. right. exact Hg'.
      + split; [etransitivity; [exact IHle|lia]|]. intros Hall.
        destruct (Hall g) as [s Hs]; [left|]. congruence. }
  destruct (Hkept (groupby leb key frame)) as [Hkle Hkeq].
  split; [lia|]. intros Hkeys Hall.
  rewrite Hkeq by exact Hall. rewrite Hgroups. apply Heq.
  intros r Hr. destruct (Hkeys r Hr) as [k Hk]. exists k. split; [|exact Hk].
  apply elem_of_sorted_keys, list_elem_of_omap. exists r. split; assumption.
Qed.
End GroupCount.

(** ** Segments share no record *)

Lemma kept_groups_distinct {K A B : Type} (keep : K * A -> option B)
    (label : B -> K) (gs : list (K * A)) :
  (forall g s, keep g = Some s -> label s = g.1) ->
  NoDup (map fst gs) -> NoDup (map label (omap keep gs)).
Proof.
  intros Hlabel. induction gs as [|g gs IH]; simpl; [constructor|].
  intros Hnd. apply NoDup_cons in Hnd as [Hg Hnd].
  destruct (keep g) as [s|] eqn:Hs; simpl; [|exact (IH Hnd)].
  constructor; [|exact (IH Hnd)].
  intros Hin. apply Hg.
  apply list_elem_of_fmap in Hin as (s' & Heq & Hs').
  apply list_elem_of_omap in Hs' as (g' & Hg' & Hkeep').
  apply list_elem_of_fmap. exists g'. split; [|exact Hg'].
  rewrite <- (Hlabel g s Hs), <- (Hlabel g' s' Hkeep'). exact Heq.
Qed.

Section SegmentTotals.
Context `{Library} (min_segment_size : Z).
Import DataSegmenter.

Lemma route_segment_rows g s :
  route_segment min_segment_size g = Some s -> rows (data s) = rows g.2.
Proof.
  destruct g as [[o d] grp]. unfold route_segment.
  destruct (min_segment_size <=? len grp); [|discriminate].
  intros [= <-]. reflexivity.
Qed.

Lemma temporal_segment_rows freq g s :
  temporal_segment min_segment_size freq g = Some s ->
  rows (data s) = rows g.2.
Proof.
  destruct g as [p grp]. unfold temporal_segment.
  destruct (min_segment_size <=? len grp); [|discriminate].
  intros [= <-]. reflexivity.
Qed.

Lemma airline_segment_rows g s :
  airline_segment min_segment_size g = Some s -> rows (data s) = rows g.2.
Proof.
  destruct g as [a grp]. unfold airline_segment.
  destruct (min_segment_size <=? len grp); [|discriminate].
  intros [= <-]. reflexivity.
Qed.

Lemma demand_segment_rows g s :
  demand_segment min_segment_size g = Some s -> rows (data s) = rows g.2.
Proof.
  destruct g as [c grp]. unfold demand_segment.
  destruct (min_segment_size <=? len grp); [|discriminate].
  intros [= <-]. reflexivity.
Qed.

(** With a threshold of at most 1 the size guard keeps every group. *)
Lemma small_threshold_keeps {K} `{EqDecision K} (leb : K -> K -> bool)
    (key : Row -> option K) (keep : K * DataFrame -> option DataSegment)
    frame :
  min_segment_size <= 1 ->
  (forall g, min_segment_size <= len g.2 -> is_Some (keep g)) ->
  forall g, g ∈ groupby leb key frame -> is_Some (keep g).
Proof.
  intros Hmin Hkeep [k grp] Hg. apply Hkeep.
  apply groupby_nonempty in Hg. unfold len. simpl.
  destruct (rows grp); [contradiction|simpl; lia].
Qed.

Lemma route_segment_kept g :
  min_segment_size <= len g.2 -> is_Some (route_segment min_segment_size g).
Proof.
  destruct g as [[o d] grp]. simpl. intros Hle. unfold route_segment.
  rewrite (proj2 (Z.leb_le _ _) Hle). eexists. reflexivity.
Qed.

Lemma temporal_segment_kept freq g :
  min_segment_size <= len g.2 ->
  is_Some (temporal_segment min_segment_size freq g).
Proof.
  destruct g as [p grp]. simpl. intros Hle. unfold temporal_segment.
  rewrite (proj2 (Z.leb_le _ _) Hle). eexists. reflexivity.
Qed.

Lemma airline_segment_kept g :
  min_segment_size <= len g.2 ->
  is_Some (airline_segment min_segment_size g).
Proof.
  destruct g as [a grp]. simpl. intros Hle. unfold airline_segment.
  rewrite (proj2 (Z.leb_le _ _) Hle). eexists. reflexivity.
Qed.

Lemma segment_by_route_total frame :
  (total_records (segment_by_route min_segment_size frame)
   <= length (rows frame))%nat
  /\ (min_segment_size <= 1 ->
      total_records (segment_by_route min_segment_size frame)
      = length (rows frame)).
Proof.
  destruct (kept_groups_total pair_leb pair_leb_order
              (fun r => Some (origin r, destination r))
              (route_segment min_segment_size) frame route_segment_rows)
    as [Hle Heq].
  split; [exact Hle|]. intros Hmin. apply Heq.
  - intros r _. eexists. reflexivity.
  - apply small_threshold_keeps; [exact Hmin|exact route_segment_kept].
Qed.

Lemma segment_by_temporal_total frame freq :
  (total_records (segment_by_temporal min_segment_size frame freq).1
   <= length (rows frame))%nat
  /\ (min_segment_size <= 1 ->
      total_records (segment_by_temporal min_segment_size frame freq).1
      = length (rows frame)).
Proof.
  unfold segment_by_temporal. cbn [fst].
  destruct (kept_groups_total Z.leb Z_leb_order period
              (temporal_segment min_segment_size freq)
              (set_period frame (fun r => to_period freq (date r)))
              (temporal_segment_rows freq))
    as [Hle Heq].
  assert (length (rows (set_period frame
                          (fun r => to_period freq (date r))))
          = length (rows frame)) as Hlen
    by (unfold set_period; cbn [rows]; apply length_map).
  rewrite Hlen in Hle, Heq.
  split; [exact Hle|]. intros Hmin. apply Heq.
  - intros r Hr. unfold set_period in Hr. cbn [rows] in Hr.
    apply list_elem_of_fmap in Hr as (r' & -> & _). eexists. reflexivity.
  - apply small_threshold_keeps;
      [exact Hmin|exact (temporal_segment_kept freq)].
Qed.

Lemma refine_route_total route_segment :
  (total_records (refine_route min_segment_size route_segment)
   <= length (rows (data route_segment)))%nat
  /\ (min_segment_size <= 1 ->
      total_records (refine_route min_segment_size route_segment)
      = length (rows (data route_segment))).
Proof.
  assert (total_records (refine_route min_segment_size route_segment)
          = total_records
              (segment_by_temporal min_segment_size (data route_segment)
                 "W").1) as ->.
  { unfold refine_route, total_records.
    induction (segment_by_temporal min_segment_size (data route_segment)
                 "W").1 as [|s l IH]; [reflexivity|].
    cbn [map sum_list_with data]. f_equal. exact IH. }
  apply segment_by_temporal_total.
Qed.

Lemma hierarchical_segmentation_total frame :
  (total_records (hierarchical_segmentation min_segment_size frame)
   <= length (rows frame))%nat
  /\ (min_segment_size <= 1 ->
      total_records (hierarchical_segmentation min_segment_size frame)
      = length (rows frame)).
Proof.
  destruct (segment_by_route_total frame) as [Hle Heq].
  unfold hierarchical_segmentation.
  assert (forall l,
            (total_records (concat (map (refine_route min_segment_size) l))
             <= total_records l)%nat
            /\ (min_segment_size <= 1 ->
                total_records (concat (map (refine_route min_segment_size) l))
                = total_records l)) as Hall.
  { induction l as [|rs l [IHle IHeq]]; [split; reflexivity|].
    cbn [map concat]. unfold total_records in *.
    rewrite sum_list_with_app. cbn [sum_list_with].
    destruct (refine_route_total rs) as [Hrle Hreq].
    unfold total_records in Hrle, Hreq.
    split; [lia|]. intros Hmin. rewrite Hreq, IHeq by exact Hmin.
    reflexivity. }
  destruct (Hall (segment_by_route min_segment_size frame)) as [Hhle Hheq].
  split; [lia|]. intros Hmin. rewrite Hheq, Heq by exact Hmin. reflexivity.
Qed.

(** X17.  A route segment holds exactly the records of its origin and
    destination, in their order; no two route segments have the same
    route; together the segments hold at most as many records as the
    frame, and with a threshold of at most 1 exactly as many: every
    record then lies in one segment. *)
Theorem route_segments_partition (frame : DataFrame) :
  let segments := segment_by_route min_segment_size frame in
  Forall (fun s =>
            exists o d,
              metadata s !! "origin" = Some (VStr o)
              /\ metadata s !! "destination" = Some (VStr d)
              /\ rows (data s)
                 = filter (fun r => origin r = o /\ destination r = d)
                          (rows frame))
         segments
  /\ NoDup (map (fun s => (metadata s !! "origin",
                           metadata s !! "destination")) segments)
  /\ (total_records segments <= length (rows frame))%nat
  /\ (min_segment_size <= 1 ->
      total_records segments = length (rows frame)).
Proof.
  intros segments. split; [|split; [|apply segment_by_route_total]].
  - apply Forall_forall. intros s Hs.
    apply list_elem_of_omap in Hs as ([[o d] grp] & Hgrp & Hkeep).
    apply groupby_rows in Hgrp as [Hrows _].
    pose proof (route_segment_rows _ _ Hkeep) as Hdata. simpl in Hdata.
    unfold route_segment in Hkeep.
    destruct (min_segment_size <=? len grp); [|discriminate].
    injection Hkeep as <-. exists o, d.
    split; [reflexivity|]. split; [reflexivity|].
    cbn [data copy rows]. rewrite Hrows. apply list_filter_iff.
    intros r. split; [intros [= <- <-]; split; reflexivity|].
    intros [<- <-]. reflexivity.
  - set (label := fun s : DataSegment =>
           match metadata s !! "origin", metadata s !! "destination" with
           | Some (VStr o), Some (VStr d) => (o, d)
           | _, _ => (""%string, ""%string)
           end).
    assert (NoDup (map label segments)) as Hnd.
    { apply kept_groups_distinct.
      - intros [[o d] grp] s Hkeep. unfold route_segment in Hkeep.
        destruct (min_segment_size <=? len grp); [|discriminate].
        injection Hkeep as <-. reflexivity.
      - rewrite groupby_keys.
        apply sorted_keys_NoDup, pair_leb_order. }
    revert Hnd. generalize segments. clear segments.
    induction segments as [|s l IH]; simpl; [constructor|].
    intros Hnd. apply NoDup_cons in Hnd as [Hs Hnd].
    constructor; [|exact (IH Hnd)].
    intros Hin. apply Hs.
    apply list_elem_of_fmap in Hin as (s' & Heq & Hs').
    apply list_elem_of_fmap. exists s'. split; [|exact Hs'].
    unfold label. injection Heq as -> ->. reflexivity.
Qed.

Lemma segment_by_demand_pattern_total frame segments frame' :
  segment_by_demand_pattern min_segment_size frame = Ok (segments, frame') ->
  (total_records segments <= length (rows frame))%nat.
Proof.
  intros Hrun. unfold segment_by_demand_pattern in Hrun.
  apply bind_Ok in Hrun as (q & _ & Hrun).
  destruct (Z.min 5 q <? 2);
    [injection Hrun as <- _; unfold total_records; simpl; lia|].
  apply bind_Ok in Hrun as (labels & _ & Hrun).
  apply bind_Ok in Hrun as (frame2 & Hset & Hrun).
  injection Hrun as <- _.
  destruct (kept_groups_total Z.leb Z_leb_order demand_cluster
              (demand_segment min_segment_size) frame2
              demand_segment_rows) as [Hdle _].
  apply set_demand_cluster_rows in Hset as (_ & Hcells & _).
  apply (f_equal length) in Hcells. rewrite !length_map in Hcells.
  rewrite <- Hcells. exact Hdle.
Qed.

(** X18.  Under the temporal, airline, demand-pattern and hierarchical
    strategies too the segments together hold at most as many records as
    the frame; with a threshold of at most 1 the temporal, airline and
    hierarchical segments hold exactly as many. *)
Theorem segments_total_records (frame : DataFrame) (freq : string) :
  (total_records (segment_by_temporal min_segment_size frame freq).1
   <= length (rows frame))%nat
  /\ (total_records (segment_by_airline min_segment_size frame)
      <= length (rows frame))%nat
  /\ match segment_by_demand_pattern min_segment_size frame with
     | Ok (segments, _) =>
         (total_records segments <= length (rows frame))%nat
     | Raise _ => True
     end
  /\ (total_records (hierarchical_segmentation min_segment_size frame)
      <= length (rows frame))%nat
  /\ (min_segment_size <= 1 ->
      total_records (segment_by_temporal min_segment_size frame freq).1
      = length (rows frame)
      /\ total_records (segment_by_airline min_segment_size frame)
         = length (rows frame)
      /\ total_records (hierarchical_segmentation min_segment_size frame)
         = length (rows frame)).
Proof.
  destruct (segment_by_temporal_total frame freq) as [Htle Hteq].
  destruct (hierarchical_segmentation_total frame) as [Hhle Hheq].
  destruct (kept_groups_total String.leb string_leb_order
              (fun r => Some (airline r))
              (airline_segment min_segment_size) frame airline_segment_rows)
    as [Hale Haeq].
  split; [exact Htle|]. split; [exact Hale|]. split; [|split].
  - destruct (segment_by_demand_pattern min_segment_size frame)
      as [[segments frame']|e] eqn:Hrun; [|exact I].
    eapply segment_by_demand_pattern_total; exact Hrun.
  - exact Hhle.
  - intros Hmin. split; [exact (Hteq Hmin)|]. split; [|exact (Hheq Hmin)].
    apply Haeq.
    + intros r _. eexists. reflexivity.
    + apply small_threshold_keeps; [exact Hmin|exact airline_segment_kept].
Qed.

(** X19.  Temporal segmentation of the frame that temporal segmentation
    left behind gives the same segments and leaves that frame as it
    is. *)
Theorem segment_by_temporal_again (frame : DataFrame) (freq : string) :
  let first := segment_by_temporal min_segment_size frame freq in
  segment_by_temporal min_segment_size first.2 freq = first.
Proof.
  intros first. unfold first, segment_by_temporal. cbn [snd].
  assert (set_period (set_period frame (fun r => to_period freq (date r)))
            (fun r => to_period freq (date r))
          = set_period frame (fun r => to_period freq (date r))) as ->;
    [|reflexivity].
  unfold set_period. cbn [columns rows]. f_equal.
  - unfold add_column.
    destruct (bool_decide ("period" ∈ columns frame)) eqn:Hin.
    + rewrite Hin. reflexivity.
    + rewrite bool_decide_eq_true_2; [reflexivity|].
      apply elem_of_app. right. left.
  - rewrite map_map. reflexivity.
Qed.

(** ** Demand patterns: when clustering is tried *)

Lemma floordiv_negative (a b : Z) : 0 <= a -> b < 0 -> a / b <= 0.
Proof.
  intros Ha Hb. pose proof (Z.div_mod a b) as Hdiv.
  pose proof (Z.mod_neg_bound a b Hb) as Hmod. nia.
Qed.

Lemma floordiv_small (a b : Z) : 0 < b -> a < 2 * b -> a / b < 2.
Proof. intros Hb Ha. apply Z.div_lt_upper_bound; lia. Qed.

(** X20.  Demand-pattern segmentation raises [ZeroDivisionError] for a
    threshold of 0; for a negative threshold, or a frame with fewer
    records than twice the threshold, it returns no segment and leaves
    the frame alone, without clustering; and whenever it returns a
    segment, the threshold is positive, the frame has at least twice as
    many records, and the clustering was asked for between 2 and 5
    clusters and gave one label per record. *)
Theorem demand_pattern_threshold (frame : DataFrame) :
  (min_segment_size = 0 ->
   segment_by_demand_pattern min_segment_size frame
   = Raise ZeroDivisionError)
  /\ (min_segment_size < 0
      \/ (0 < min_segment_size /\ len frame < 2 * min_segment_size) ->
      segment_by_demand_pattern min_segment_size frame = Ok ([], frame))
  /\ (forall segments frame',
        segment_by_demand_pattern min_segment_size frame
        = Ok (segments, frame') ->
        segments <> [] ->
        0 < min_segment_size
        /\ 2 * min_segment_size <= len frame
        /\ 2 <= Z.min 5 (len frame / min_segment_size) <= 5
        /\ exists labels,
            KMeans_fit_predict
              (Z.min 5 (len frame / min_segment_size))
              (map (fun r => (days_to_departure r, occupancy_rate r, price r))
                   (rows frame))
            = Some labels
            /\ length labels = length (rows frame)).
Proof.
  assert (0 <= len frame) as Hlen by (unfold len; lia).
  unfold segment_by_demand_pattern, floordiv. split; [|split].
  - intros ->. reflexivity.
  - intros Hsmall.
    destruct (min_segment_size =? 0) eqn:Hzero; [lia|].
    cbn [mbind result_bind].
    destruct (Z.min 5 (len frame / min_segment_size) <? 2) eqn:Hfew;
      [reflexivity|].
    exfalso. apply Z.ltb_ge in Hfew.
    destruct Hsmall as [Hneg|[Hpos Hsmall]].
    + pose proof (floordiv_negative (len frame) min_segment_size Hlen Hneg).
      lia.
    + pose proof (floordiv_small (len frame) min_segment_size Hpos Hsmall).
      lia.
  - intros segments frame' Hrun Hne.
    destruct (min_segment_size =? 0) eqn:Hzero; [discriminate|].
    cbn [mbind result_bind] in Hrun.
    destruct (Z.min 5 (len frame / min_segment_size) <? 2) eqn:Hfew.
    { injection Hrun as <- _. contradiction. }
    apply Z.ltb_ge in Hfew. apply Z.eqb_neq in Hzero.
    assert (0 < min_segment_size) as Hpos.
    { destruct (Z.lt_ge_cases min_segment_size 0) as [Hneg|]; [|lia].
      pose proof (floordiv_negative (len frame) min_segment_size Hlen Hneg).
      lia. }
    split; [exact Hpos|]. split.
    { pose proof (Z.mul_div_le (len frame) min_segment_size Hpos). nia. }
    split; [lia|].
    destruct (KMeans_fit_predict _ _) as [labels|]; [|discriminate].
    cbn [mbind result_bind] in Hrun. exists labels. split; [reflexivity|].
    unfold set_demand_cluster in Hrun.
    destruct (Nat.eqb (length labels) (length (rows frame))) eqn:Heq;
      [|discriminate].
    apply Nat.eqb_eq, Heq.
Qed.
End SegmentTotals.

(** ** Divide: the period and the date range of a temporal segment *)

Lemma date_min_spec (d : Z) (ds : list Z) :
  let lo := DataSegmenter.date_min (d :: ds) in
  lo ∈ d :: ds /\ Forall (fun x => lo <= x) (d :: ds).
Proof.
  unfold DataSegmenter.date_min. cbn [hd].
  assert (forall l, foldr Z.min d l ∈ d :: l
                    /\ foldr Z.min d l <= d
                    /\ Forall (fun x => foldr Z.min d l <= x) l) as Hfold.
  { induction l as [|x l (Hin & Hd & Hall)]; cbn [foldr].
    - split; [left|]. split; [lia | constructor].
    - destruct (Z.min_spec x (foldr Z.min d l)) as [[Hlt ->]|[Hle ->]].
      + split; [right; left|]. split; [lia|].
        constructor; [lia|]. eapply Forall_impl; [exact Hall|].
        intros y Hy. simpl in Hy. lia.
      + split.
        { apply elem_of_cons in Hin as [->|Hin]; [left|].
          right; right; exact Hin. }
        split; [exact Hd|]. constructor; [lia | exact Hall]. }
  destruct (Hfold (d :: ds)) as (Hin & Hd & Hall).
  split; [|exact Hall].
  apply elem_of_cons in Hin as [->|Hin]; [left | exact Hin].
Qed.

Lemma date_max_spec (d : Z) (ds : list Z) :
  let hi := DataSegmenter.date_max (d :: ds) in
  hi ∈ d :: ds /\ Forall (fun x => x <= hi) (d :: ds).
Proof.
  unfold DataSegmenter.date_max. cbn [hd].
  assert (forall l, foldr Z.max d l ∈ d :: l
                    /\ d <= foldr Z.max d l
                    /\ Forall (fun x => x <= foldr Z.max d l) l) as Hfold.
  { induction l as [|x l (Hin & Hd & Hall)]; cbn [foldr].
    - split; [left|]. split; [lia | constructor].
    - destruct (Z.max_spec x (foldr Z.max d l)) as [[Hlt ->]|[Hle ->]].
      + split.
        { apply elem_of_cons in Hin as [->|Hin]; [left|].
          right; right; exact Hin. }
        split; [exact Hd|]. constructor; [lia | exact Hall].
      + split; [right; left|]. split; [lia|].
        constructor; [lia|]. eapply Forall_impl; [exact Hall|].
        intros y Hy. simpl in Hy. lia. }
  destruct (Hfold (d :: ds)) as (Hin & Hd & Hall).
  split; [|exact Hall].
  apply elem_of_cons in Hin as [->|Hin]; [left | exact Hin].
Qed.

Section TemporalSegments.
Context `{Library} (min_segment_size : Z).
Import DataSegmenter.

(** X21.  Every record of a temporal segment lies in the segment's
    period, which is the period of its date; the segment holds all
    records of the frame with that period; and the [date_range] it
    records is the earliest and the latest date among its records. *)
Theorem temporal_segments_period_and_dates (frame : DataFrame)
    (freq : string) :
  Forall (fun s =>
            exists p lo hi,
              metadata s !! "period" = Some (VStr (period_str freq p))
              /\ Forall (fun r => period r = Some p
                                  /\ to_period freq (date r) = p)
                        (rows (data s))
              /\ map base_cells (rows (data s))
                 = map base_cells
                       (filter (fun r => to_period freq (date r) = p)
                               (rows frame))
              /\ metadata s !! "date_range"
                 = Some (VPair (VInt lo) (VInt hi))
              /\ lo ∈ map date (rows (data s))
              /\ hi ∈ map date (rows (data s))
              /\ Forall (fun r => lo <= date r <= hi) (rows (data s)))
         (segment_by_temporal min_segment_size frame freq).1.
Proof.
  apply Forall_forall. intros s Hs.
  unfold segment_by_temporal in Hs. cbn [fst] in Hs.
  apply list_elem_of_omap in Hs as ([p grp] & Hgrp & Hkeep).
  pose proof (groupby_nonempty _ _ _ _ _ Hgrp) as Hne.
  apply groupby_rows in Hgrp as [Hrows _].
  unfold temporal_segment in Hkeep.
  destruct (min_segment_size <=? len grp); [|discriminate].
  injection Hkeep as <-. cbn [metadata data copy rows].
  exists p, (date_min (map date (rows grp))),
    (date_max (map date (rows grp))).
  split; [reflexivity|].
  assert (Forall (fun r => period r = Some p
                           /\ to_period freq (date r) = p) (rows grp))
    as Hperiod.
  { rewrite Hrows. apply Forall_forall. intros r Hr.
    apply list_elem_of_filter in Hr as [Hp Hr]. split; [exact Hp|].
    cbn [set_period rows] in Hr.
    apply list_elem_of_fmap in Hr as (r' & -> & _).
    cbn [period date] in Hp |- *. congruence. }
  split; [exact Hperiod|]. split.
  { rewrite Hrows. cbn [set_period rows]. clear.
    induction (rows frame) as [|r l IH]; [reflexivity|].
    cbn [map]. rewrite !filter_cons. cbn [period date].
    destruct (decide (Some (to_period freq (date r)) = Some p)) as [Heq|Hneq],
      (decide (to_period freq (date r) = p)) as [Heq'|Hneq'];
      try congruence; cbn [map]; rewrite IH; reflexivity. }
  split; [reflexivity|].
  destruct (rows grp) as [|r rest] eqn:Hgrp; [contradiction|].
  cbn [map].
  destruct (date_min_spec (date r) (map date rest)) as [Hlo Hlos].
  destruct (date_max_spec (date r) (map date rest)) as [Hhi His].
  split; [exact Hlo|]. split; [exact Hhi|].
  change (date r :: map date rest) with (map date (r :: rest)) in Hlos, His.
  rewrite Forall_fmap in Hlos, His. rewrite Forall_forall in Hlos, His.
  apply Forall_forall. intros x Hx.
  specialize (Hlos x Hx). specialize (His x Hx). simpl in Hlos, His. lia.
Qed.
End TemporalSegments.

(** ** The orchestrator: when the pipeline returns *)


Section PredictReturns.
Context `{Library} (min_segment_size : Z).









(** *** A negative horizon, an unknown strategy *)

Lemma conquer_negative horizon segments :
  horizon < 0 -> omap (conquer_one horizon) segments = [].
Proof.
  intros Hneg. induction segments as [|s l IH]; [reflexivity|].
  cbn [omap list_omap]. unfold conquer_one at 1.
  rewrite (ensemble_forecast_raises s horizon ValueError)
    by (apply forecast_moving_average_negative, Hneg).
  exact IH.
Qed.

(** X6.  On a negative horizon [predict] always raises: [ValueError] when
    segmentation yields no segment, and [ZeroDivisionError] when it
    yields some, because every segment's forecast fails and the merge is
    given an empty list. *)
Theorem predict_negative_horizon_raises frame horizon strategy :
  horizon < 0 ->
  raises (predict min_segment_size frame horizon strategy)
  /\ forall segments frame',
      divide min_segment_size frame strategy = Ok (segments, frame') ->
      predict min_segment_size frame horizon strategy
      = Raise (if decide (segments = []) then ValueError
               else ZeroDivisionError).
Proof.
  intros Hneg.
  assert (forall segments frame',
    divide min_segment_size frame strategy = Ok (segments, frame') ->
    predict min_segment_size frame horizon strategy
    = Raise (if decide (segments = []) then ValueError
             else ZeroDivisionError)) as Hcase.
  { intros segments frame' Hdiv. unfold predict. rewrite Hdiv.
    cbn [mbind result_bind]. destruct segments as [|s rest].
    - rewrite (ensemble_forecast_raises _ horizon ValueError)
        by (apply forecast_moving_average_negative, Hneg).
      reflexivity.
    - rewrite conquer_negative by exact Hneg. reflexivity. }
  split; [|exact Hcase].
  destruct (divide min_segment_size frame strategy)
    as [[segments frame']|e] eqn:Hdiv.
  - eexists. apply (Hcase segments frame'). reflexivity.
  - exists e. unfold predict. rewrite Hdiv. reflexivity.
Qed.

(** X7.  [predict] knows the strategies route, temporal, hierarchical
    and demand_pattern; any other name, also airline, for which the
    segmenter has a method, raises [ValueError] before anything is
    computed. *)
Theorem predict_unknown_strategy_raises frame horizon strategy :
  strategy ∉ ["route"; "temporal"; "hierarchical"; "demand_pattern"] ->
  divide min_segment_size frame strategy = Raise ValueError
  /\ predict min_segment_size frame horizon strategy = Raise ValueError.
Proof.
  intros Hnot.
  assert (divide min_segment_size frame strategy = Raise ValueError) as Hdiv.
  { unfold divide.
    repeat destruct (decide _) as [->|?]; try reflexivity;
      exfalso; apply Hnot; apply list_elem_of_In; simpl; tauto. }
  split; [exact Hdiv|]. unfold predict. rewrite Hdiv. reflexivity.
Qed.
End PredictReturns.


(** A horizon of -1, with one segment and with none. *)
Lemma predict_negative_horizon_raises_witness :
  @predict Demo.failing_library 2 Demo.df (-1) "route"
  = Raise ZeroDivisionError
  /\ @predict Demo.failing_library 10 Demo.df (-1) "route"
     = Raise ValueError.
Proof.
  split.
  - destruct (@predict_negative_horizon_raises Demo.failing_library 2
                Demo.df (-1) "route") as [_ Hrun]; [lia|].
    rewrite (Hrun _ _ eq_refl). vm_compute. reflexivity.
  - destruct (@predict_negative_horizon_raises Demo.failing_library 10
                Demo.df (-1) "route") as [_ Hrun]; [lia|].
    rewrite (Hrun _ _ eq_refl). vm_compute. reflexivity.
Defined.

(** The segmenter has [segment_by_airline], [predict] does not offer
    it. *)
Lemma predict_unknown_strategy_raises_witness :
  @predict Demo.failing_library 2 Demo.df 3 "airline" = Raise ValueError.
Proof.
  apply (@predict_unknown_strategy_raises Demo.failing_library 2 Demo.df 3
           "airline").
  rewrite !elem_of_cons, elem_of_nil.
  intros [?|[?|[?|[?|[]]]]]; discriminate.
Defined.

(** ** The orchestrator: the confidence of the result *)

Section PredictConfidence.
Context `{Library} (min_segment_size : Z).

Lemma ensemble_forecast_confidence segment horizon ensemble confidence :
  ensemble_forecast segment horizon = Ok (ensemble, confidence) ->
  in_range 0 1 confidence.
Proof.
  intros Hrun.
  apply ensemble_forecast_inv in Hrun as (fs & ws & Hmem & _ & ->).
  apply ensemble_members_three in Hmem as [Hlen _].
  apply agreement_in_range. lia.
Qed.

Lemma conquer_one_confidence horizon segment sf :
  conquer_one horizon segment = Some sf -> in_range 0 1 (sf_confidence sf).
Proof.
  unfold conquer_one.
  destruct (ensemble_forecast segment horizon)
    as [[forecast confidence]|e] eqn:Hens; [|discriminate].
  intros [= <-]. simpl. eapply ensemble_forecast_confidence; exact Hens.
Qed.

Lemma in_range_finite lo hi a : in_range lo hi a -> finite a.
Proof. destruct a; simpl; tauto. Qed.

(** The confidence of the merge is one of the members' confidences. *)
Lemma confidence_merge_confidence lo hi segment_forecasts
    forecast confidence weights :
  ForecastMerger.confidence_merge segment_forecasts
  = Ok (forecast, confidence, weights) ->
  Forall (in_range lo hi) (map sf_confidence segment_forecasts) ->
  in_range lo hi confidence.
Proof.
  unfold ForecastMerger.confidence_merge. intros Hrun Hall.
  apply bind_Ok in Hrun as (merged & Havg & Hrun).
  apply bind_Ok in Hrun as (c & Hmax & Hrun).
  injection Hrun as _ <- _.
  destruct (max_finite (map sf_confidence segment_forecasts))
    as (m & Hm & Hin & _).
  - eapply Forall_impl; [exact Hall|]. intros a. apply in_range_finite.
  - apply average_axis0_Ok in Havg as (Hne & _).
    destruct segment_forecasts; [contradiction | discriminate].
  - rewrite Hm in Hmax. injection Hmax as <-.
    rewrite Forall_forall in Hall. apply Hall, Hin.
Qed.

(** X8.  Whenever [predict] returns, whatever the statistical models
    do, the confidence in the result lies between 0 and 1. *)
Theorem predict_confidence_in_unit_interval frame horizon strategy res :
  predict min_segment_size frame horizon strategy = Ok res ->
  exists confidence,
    res !! "confidence" = Some (VFloat confidence)
    /\ in_range 0 1 confidence.
Proof.
  intros Hrun.
  apply predict_inv in Hrun as (segments & frame' & _ & [Hglobal|Hmerged]).
  - destruct Hglobal as (_ & forecast & confidence & Hens & ->).
    exists confidence. split; [reflexivity|].
    eapply ensemble_forecast_confidence; exact Hens.
  - destruct Hmerged as (_ & forecast & confidence & weights & Hcm & ->).
    exists confidence. split; [reflexivity|].
    eapply confidence_merge_confidence; [exact Hcm|].
    apply Forall_forall. intros c Hc.
    apply list_elem_of_fmap in Hc as (sf & -> & Hsf).
    apply list_elem_of_omap in Hsf as (s & _ & Hs).
    eapply conquer_one_confidence; exact Hs.
Qed.
End PredictConfidence.

(** A run of [predict] through the merge. *)
Lemma predict_confidence_in_unit_interval_witness :
  let res :=
    Demo.ok_or ∅ (@predict Demo.naive_library 2 Demo.df 3 "route") in
  @predict Demo.naive_library 2 Demo.df 3 "route" = Ok res
  /\ exists confidence,
      res !! "confidence" = Some (VFloat confidence)
      /\ in_range 0 1 confidence.
Proof.
  intros res.
  assert (@predict Demo.naive_library 2 Demo.df 3 "route" = Ok res)
    as Hrun by (apply is_ok_eq; vm_compute; reflexivity).
  split; [exact Hrun|].
  exact (predict_confidence_in_unit_interval 2 Demo.df 3 "route" _ Hrun).
Defined.

